(** * RHAPSODY policy mining: a shallow embedding of the backend

    The development follows [backend/rhapsody_algorithm.py] (the three-stage
    miner) and [backend/policy_evaluator.py] (the serving-time matcher).
    Python values are embedded as follows:
    - [str] as [string] (the bytes of the UTF-8 encoding, so that comparing
      and splitting on a valid UTF-8 separator agree with Python's code-point
      operations);
    - [int] as [Z]; [float] as the primitive IEEE-754 binary64 [float];
    - [dict] with string keys as [gmap string _]; [set]/[frozenset] of
      strings as [gset string]; [list] as [list];
    - a raised exception as the [Raise] branch of [res]. *)

From Stdlib Require Import ZArith Floats Uint63 Ascii String Lia.
From stdpp Require Import gmap strings list sorting.

Set Default Proof Using "Type".
Local Open Scope Z_scope.

(** ** Exceptions *)

Inductive error :=
  | ValueError (msg : string)
  | KeyError (key : string)
  | ZeroDivisionError
  | OverflowError
  | AttributeError (msg : string).

Inductive res (A : Type) :=
  | Ok (a : A)
  | Raise (e : error).
Arguments Ok {A} a.
Arguments Raise {A} e.

#[global] Instance error_eq_dec : EqDecision error.
Proof. solve_decision. Defined.
#[global] Instance res_eq_dec {A} `{EqDecision A} : EqDecision (res A).
Proof. solve_decision. Defined.

#[global] Instance res_ret : MRet res := @Ok.
#[global] Instance res_bind : MBind res := λ A B f m,
  match m with Ok a => f a | Raise e => Raise e end.

(** [for x in l: acc = f(acc, x)], stopping at the first exception. *)
Fixpoint foldM {A B} (f : B → A → res B) (acc : B) (l : list A) : res B :=
  match l with
  | [] => Ok acc
  | x :: l' => acc' ← f acc x; foldM f acc' l'
  end.

(** [[f(x) for x in l]], stopping at the first exception. *)
Fixpoint mapM {A B} (f : A → res B) (l : list A) : res (list B) :=
  match l with
  | [] => Ok []
  | x :: l' => y ← f x; ys ← mapM f l'; Ok (y :: ys)
  end.

(** [d[k]] on a dictionary with string keys. *)
Definition getitem {V} (d : gmap string V) (k : string) : res V :=
  match d !! k with
  | Some v => Ok v
  | None => Raise (KeyError k)
  end.

(** ** Python built-ins on strings and lists *)
Module Py.

(** [sep.join(l)] *)
Fixpoint join (sep : string) (l : list string) : string :=
  match l with
  | [] => ""
  | [x] => x
  | x :: l' => x +:+ sep +:+ join sep l'
  end.

(** [s.split(sep)] for a non-empty [sep]: the pieces between the leftmost
    non-overlapping occurrences of [sep].  [skip] counts the characters of a
    separator occurrence that are still to be dropped. *)
Fixpoint split_go (sep : string) (skip : nat) (s : string) : list string :=
  match s with
  | EmptyString => [""]
  | String c s' =>
      match skip with
      | S k => split_go sep k s'
      | O =>
          if String.prefix sep s
          then "" :: split_go sep (Nat.pred (String.length sep)) s'
          else match split_go sep O s' with
               | w :: ws => String c w :: ws
               | [] => [String c ""]
               end
      end
  end.

Definition split (sep s : string) : list string := split_go sep O s.

(** [s.split(sep, 1)]: split at the first occurrence only. *)
Fixpoint split1 (sep : string) (s : string) : list string :=
  match s with
  | EmptyString => [""]
  | String c s' =>
      if String.prefix sep s
      then [""; String.substring (String.length sep) (String.length s) s]
      else match split1 sep s' with
           | w :: ws => String c w :: ws
           | [] => [String c ""]
           end
  end.

(** [sub in s] *)
Fixpoint contains (sub s : string) : bool :=
  String.prefix sub s ||
  match s with
  | EmptyString => false
  | String _ s' => contains sub s'
  end.

(** [str.isspace] on the ASCII range: tab, LF, VT, FF, CR, FS, GS, RS, US and
    space.  Non-ASCII white space is outside the byte-level model. *)
Definition isspace (c : ascii) : bool :=
  let n := nat_of_ascii c in
  ((9 <=? n) && (n <=? 13) || (28 <=? n) && (n <=? 32))%nat.

Fixpoint lstrip (s : string) : string :=
  match s with
  | String c s' => if isspace c then lstrip s' else s
  | EmptyString => ""
  end.

Fixpoint rstrip (s : string) : string :=
  match s with
  | String c s' =>
      match rstrip s' with
      | EmptyString => if isspace c then "" else String c ""
      | t => String c t
      end
  | EmptyString => ""
  end.

(** [s.strip()] *)
Definition strip (s : string) : string := rstrip (lstrip s).

(** Stable insertion of [x] in front of the first element not below it. *)
Fixpoint insert_sorted {A} (le : A → A → bool) (x : A) (l : list A) : list A :=
  match l with
  | [] => [x]
  | y :: l' => if le x y then x :: l else y :: insert_sorted le x l'
  end.

(** [sorted(l)] for the order [le]: Python's sort is stable, and a stable
    sort is determined by its order, so any stable algorithm models it. *)
Definition sorted {A} (le : A → A → bool) (l : list A) : list A :=
  foldr (insert_sorted le) [] l.

(** [sorted(l)] on strings: code-point order, which is the byte order of
    the UTF-8 encoding. *)
Definition sorted_str (l : list string) : list string := sorted String.leb l.

(** [float(z)] for an integer below [2^53] in magnitude, where the
    conversion is exact; every count of a transaction log is in this range,
    and the model is not meant for integers beyond it. *)
Definition float_of_Z (z : Z) : float :=
  if z <? 0 then PrimFloat.opp (PrimFloat.of_uint63 (Uint63.of_Z (- z)))
  else PrimFloat.of_uint63 (Uint63.of_Z z).

(** [a / b] on integers: true division, the binary64 quotient of the
    operands, or [ZeroDivisionError]. *)
Definition truediv (a b : Z) : res float :=
  if decide (b = 0) then Raise ZeroDivisionError
  else Ok (PrimFloat.div (float_of_Z a) (float_of_Z b)).

(** [int(x)] on a float: truncation towards zero. *)
Definition int (x : float) : res Z :=
  match Prim2SF x with
  | S754_zero _ => Ok 0
  | S754_infinity _ => Raise OverflowError
  | S754_nan => Raise (ValueError "cannot convert float NaN to integer")
  | S754_finite s m e =>
      let v := if 0 <=? e then Z.shiftl (Z.pos m) e else Z.shiftr (Z.pos m) (- e) in
      Ok (if s then - v else v)
  end.

(** [s.rsplit(sep, 1)] for a non-empty [sep]: split at the last occurrence
    only. *)
Fixpoint rsplit1 (sep : string) (s : string) : list string :=
  match s with
  | EmptyString => [""]
  | String c s' =>
      match rsplit1 sep s' with
      | [w] => if String.prefix sep s
               then [""; String.substring (String.length sep) (String.length s) s]
               else [String c w]
      | w :: ws => String c w :: ws
      | [] => [String c ""]
      end
  end.

(** [str.lower] on the ASCII range; other characters are left as they are
    (no character outside ASCII has a lower-case form made of the letters of
    [csv] or [txt], the only strings the result is compared with). *)
Definition lower_ascii (c : ascii) : ascii :=
  let n := nat_of_ascii c in
  if ((65 <=? n) && (n <=? 90))%nat then ascii_of_nat (n + 32) else c.

Fixpoint lower (s : string) : string :=
  match s with
  | EmptyString => ""
  | String c s' => String (lower_ascii c) (lower s')
  end.

End Py.

(** ** The part of pandas the miner uses *)
Module Pandas.

(** A cell of a frame: a missing value, a textual value, or the [frozenset]
    of atoms that [_stage1] stores in the column ['atoms']. *)
Inductive cell :=
  | NaN
  | Text (s : string)
  | AtomSet (atoms : gset string).

#[global] Instance cell_eq_dec : EqDecision cell.
Proof. solve_decision. Defined.

(** [pd.notna(v)] *)
Definition notna (v : cell) : bool :=
  match v with NaN => false | _ => true end.

(** [str(v)], as the f-string [f"{col}={row[col]}"] renders a cell.  Python
    prints a frozenset in hash order; the order of [elements] stands for
    it. *)
Definition str (v : cell) : string :=
  match v with
  | NaN => "nan"
  | Text s => s
  | AtomSet a =>
      "frozenset({" +:+ Py.join ", " ((λ x, "'" +:+ x +:+ "'") <$> elements a) +:+ "})"
  end.

(** A frame: its column labels, taken to be distinct, and its rows in index
    order, each a mapping from label to cell. *)
Record DataFrame := mkDataFrame {
  columns : list string;
  rows : list (gmap string cell)
}.

#[global] Instance DataFrame_eq_dec : EqDecision DataFrame.
Proof. solve_decision. Defined.

(** [df[name] = values]: the column is overwritten when the label exists
    and appended otherwise. *)
Definition setitem (df : DataFrame) (name : string) (values : list cell) : DataFrame :=
  {| columns := if decide (name ∈ columns df) then columns df else columns df ++ [name];
     rows := zip_with (λ row v, <[name := v]> row) (rows df) values |}.

(** [df[cols]]: the frame restricted to the listed columns. *)
Definition project (df : DataFrame) (cols : list string) : DataFrame :=
  {| columns := cols;
     rows := (λ row : gmap string cell, filter (λ kv, kv.1 ∈ cols) row) <$> rows df |}.

End Pandas.

(** ** Frequent-itemset mining (mlxtend) *)
Module Mlxtend.

(** Modelled from the spec: [TransactionEncoder] of the mlxtend package,
    which the repository imports and does not contain.  [fit] collects the
    vocabulary (every distinct atom of the log, sorted); [transform] is the
    one-hot encoding of each transaction over that vocabulary. *)
Definition fit (transactions : list (gset string)) : list string :=
  Py.sorted_str (elements (⋃ transactions)).

Definition transform (columns_ : list string) (transactions : list (gset string))
    : list (list bool) :=
  (λ t : gset string, (λ c, bool_decide (c ∈ t)) <$> columns_) <$> transactions.

(** The encoded frame [pd.DataFrame(te_array, columns=te.columns_)]. *)
Record Encoded := mkEncoded {
  enc_columns : list string;
  enc_rows : list (list bool)
}.

(** The atoms of an encoded row. *)
Definition row_items (cols : list string) (bits : list bool) : gset string :=
  list_to_set (fst <$> filter (λ cb : string * bool, cb.2 = true) (zip cols bits)).

(** Occurrence count of an itemset: a scan over all transactions with a
    test of subset inclusion (section 4.2, step 2). *)
Definition count (df : Encoded) (itemset : gset string) : nat :=
  length (filter (λ bits, itemset ⊆ row_items (enc_columns df) bits) (enc_rows df)).

(** The [support] column of the result: the count as a fraction of the
    number of transactions, a binary64 division. *)
Definition support (df : Encoded) (itemset : gset string) : float :=
  PrimFloat.div (Py.float_of_Z (Z.of_nat (count df itemset)))
                (Py.float_of_Z (Z.of_nat (length (enc_rows df)))).

(** Level [k+1] candidates from the frequent itemsets [Fk] of size [k]
    (section 4.2, step 3): unions of two members sharing exactly [k-1] atoms,
    of size [k+1], all of whose [k]-subsets are in [Fk]. *)
Definition candidates (k : nat) (Fk : list (gset string)) : list (gset string) :=
  let unions :=
    A ← Fk; B ← Fk;
    if decide (size (A ∩ B) = Nat.pred k ∧ size (A ∪ B) = S k) then [A ∪ B] else [] in
  filter (λ C : gset string, set_Forall (λ x, C ∖ {[x]} ∈ Fk) C) (remove_dups unions).

(** The level-wise search from level [k] on.  No itemset is larger than the
    vocabulary, so the number of columns bounds the number of levels
    ([apriori_fuel_enough] below); the search stops earlier at a level
    without frequent itemsets (step 4). *)
Fixpoint levels (fuel : nat) (df : Encoded) (min_support : float) (k : nat)
    (cands : list (gset string)) : list (float * gset string) :=
  match fuel with
  | O => []
  | S fuel' =>
      let Fk := filter (λ si : float * gset string, PrimFloat.leb min_support si.1 = true)
                       ((λ c, (support df c, c)) <$> cands) in
      match Fk with
      | [] => []
      | _ => Fk ++ levels fuel' df min_support (S k) (candidates k (snd <$> Fk))
      end
  end.

(** The exception of mlxtend for a threshold that is not positive. *)
Definition min_support_error : error :=
  ValueError "`min_support` must be a positive number within the interval `(0, 1]`.".

(** Modelled from the spec: [apriori(df, min_support, use_colnames=True)] of
    mlxtend, as section 4.2 describes it: level 1 holds every atom of the
    vocabulary, and an itemset is retained when its support reaches
    [min_support].  The result lists [(support, itemset)] level by level.
    mlxtend rejects a non-positive [min_support] with [ValueError]. *)
Definition apriori (df : Encoded) (min_support : float) : res (list (float * gset string)) :=
  if PrimFloat.leb min_support 0
  then Raise min_support_error
  else Ok (levels (S (length (enc_columns df))) df min_support 1
             ((λ c, ({[c]} : gset string)) <$> enc_columns df)).

End Mlxtend.

(** ** The miner: [rhapsody_algorithm.py] *)
Module Rhapsody.
Import Pandas.

(** The conjunction separator of the canonical form of a rule. *)
Definition sep : string := " ∧ ".

(** The fields of a [RhapsodyAlgorithm] object.  [working_columns] is [None]
    only before a load, which every entry point performs first; it is
    modelled by the empty list there. *)
Record RhapsodyAlgorithm := mkRhapsody {
  data : option DataFrame;
  selected_columns : option (list string);
  working_columns : list string;
  freq_rules : list string;
  rel_rules : list string;
  final_rules : list string;
  nUP : gmap string Z;
  nA : gmap string Z;
  transactions : list (gset string)
}.

Definition __init__ (selected : option (list string)) : RhapsodyAlgorithm :=
  {| data := None; selected_columns := selected; working_columns := [];
     freq_rules := []; rel_rules := []; final_rules := [];
     nUP := ∅; nA := ∅; transactions := [] |}.

Definition set_data (self : RhapsodyAlgorithm) (d : DataFrame) (wc : list string)
    : RhapsodyAlgorithm :=
  {| data := Some d; selected_columns := selected_columns self; working_columns := wc;
     freq_rules := freq_rules self; rel_rules := rel_rules self;
     final_rules := final_rules self; nUP := nUP self; nA := nA self;
     transactions := transactions self |}.

Definition set_transactions (self : RhapsodyAlgorithm) (ts : list (gset string))
    : RhapsodyAlgorithm :=
  {| data := data self; selected_columns := selected_columns self;
     working_columns := working_columns self;
     freq_rules := freq_rules self; rel_rules := rel_rules self;
     final_rules := final_rules self; nUP := nUP self; nA := nA self;
     transactions := ts |}.

Definition set_stage1 (self : RhapsodyAlgorithm) (fr : list string) (up a : gmap string Z)
    : RhapsodyAlgorithm :=
  {| data := data self; selected_columns := selected_columns self;
     working_columns := working_columns self;
     freq_rules := fr; rel_rules := rel_rules self;
     final_rules := final_rules self; nUP := up; nA := a;
     transactions := transactions self |}.

Definition set_rel_rules (self : RhapsodyAlgorithm) (rr : list string) : RhapsodyAlgorithm :=
  {| data := data self; selected_columns := selected_columns self;
     working_columns := working_columns self;
     freq_rules := freq_rules self; rel_rules := rr;
     final_rules := final_rules self; nUP := nUP self; nA := nA self;
     transactions := transactions self |}.

Definition set_final_rules (self : RhapsodyAlgorithm) (fr : list string) : RhapsodyAlgorithm :=
  {| data := data self; selected_columns := selected_columns self;
     working_columns := working_columns self;
     freq_rules := freq_rules self; rel_rules := rel_rules self;
     final_rules := fr; nUP := nUP self; nA := nA self;
     transactions := transactions self |}.

(** [load_data_from_dataframe]: the object keeps a copy of the caller's
    frame, restricted to the selected columns when there are any. *)
Definition load_data_from_dataframe (self : RhapsodyAlgorithm) (df : DataFrame)
    : RhapsodyAlgorithm * res bool :=
  match selected_columns self with
  | Some (c :: cs) =>
      let selected := c :: cs in
      let missing_cols := filter (λ col, col ∉ columns df) selected in
      match missing_cols with
      | [] => (set_data self (project df selected) selected, Ok true)
      | _ => (set_data self df (working_columns self),
              Raise (ValueError ("Selected columns not found in data: "
                                   +:+ Py.join ", " missing_cols)))
      end
  | _ => (set_data self df (columns df), Ok true)
  end.

(** [set(rule.split(" ∧ "))] *)
Definition atoms_of (rule : string) : gset string :=
  list_to_set (Py.split sep rule).

(** [f"{col}={row[col]}"] *)
Definition atom (col : string) (v : cell) : string := col +:+ "=" +:+ str v.

(** The local function [create_atoms] of [_stage1]. *)
Definition create_atoms (wc : list string) (row : gmap string cell) : res (gset string) :=
  atoms ← foldM (λ atoms col,
                   v ← getitem row col;
                   Ok (if notna v then atoms ++ [atom col v] else atoms))
                [] wc;
  Ok (list_to_set atoms).

(** The [request_atoms] of the second scan of [_stage1]. *)
Definition request_atoms (wc : list string) (row : gmap string cell) : res (gset string) :=
  foldM (λ acc col,
           v ← getitem row col;
           Ok (if notna v then {[atom col v]} ∪ acc else acc))
        (∅ : gset string) wc.

(** [_stage1] after the transactions are built (source lines 119-164): it
    reads the object and its frame and changes neither. *)
Definition stage1_mine (self : RhapsodyAlgorithm) (df : DataFrame) (T : Z)
    : res (list string * gmap string Z * gmap string Z) :=
  let te_columns := Mlxtend.fit (transactions self) in
  let te_array := Mlxtend.transform te_columns (transactions self) in
  let df_encoded := Mlxtend.mkEncoded te_columns te_array in
  let n := Z.of_nat (length (transactions self)) in
  min_support ← Py.truediv T n;
  freq_itemsets ← Mlxtend.apriori df_encoded min_support;
  match freq_itemsets with
  | [] => Ok ([], ∅, ∅)
  | _ =>
      rules ← foldM (λ (acc : list string * gmap string Z) (row : float * gset string),
                       let rule := Py.join sep (Py.sorted_str (elements row.2)) in
                       v ← Py.int (PrimFloat.mul row.1 (Py.float_of_Z n));
                       Ok (acc.1 ++ [rule], <[rule := v]> acc.2))
                    ([], ∅) freq_itemsets;
      let freq_rules := rules.1 in
      let nUP := rules.2 in
      let nA0 := foldl (λ (nA : gmap string Z) rule, <[rule := 0]> nA) ∅ freq_rules in
      nA ← foldM (λ (nA : gmap string Z) row,
                    request ← request_atoms (working_columns self) row;
                    foldM (λ (nA : gmap string Z) rule,
                             if decide (atoms_of rule ⊆ request)
                             then v ← getitem nA rule; Ok (<[rule := v + 1]> nA)
                             else Ok nA)
                          nA freq_rules)
                 nA0 (rows df);
      Ok (freq_rules, nUP, nA)
  end.

(** [_stage1]: the atom set of every row is stored in the column ['atoms']
    of the object's frame and in [transactions]; then the mining proper. *)
Definition _stage1 (self : RhapsodyAlgorithm) (T : Z)
    : RhapsodyAlgorithm * res (list string * gmap string Z * gmap string Z) :=
  match data self with
  | None => (self, Raise (AttributeError "'NoneType' object has no attribute 'apply'"))
  | Some df =>
      match mapM (create_atoms (working_columns self)) (rows df) with
      | Raise e => (self, Raise e)
      | Ok atoms =>
          let df' := setitem df "atoms" (AtomSet <$> atoms) in
          let self' := set_transactions (set_data self df' (working_columns self)) atoms in
          (self', stage1_mine self' df' T)
      end
  end.

(** [_proves_unreliability]: does [r2] prove that [r1] is unreliable? *)
Definition _proves_unreliability (self : RhapsodyAlgorithm) (r1 r2 : string) (T : Z) (K : float)
    : res bool :=
  let r1_atoms := atoms_of r1 in
  let r2_atoms := atoms_of r2 in
  if decide (r1_atoms ⊆ r2_atoms) then
    n2 ← getitem (nUP self) r2;
    if n2 <? T then Ok false
    else
      n2 ← getitem (nUP self) r2;
      n1 ← getitem (nUP self) r1;
      confidence ← Py.truediv n2 (n1 + n2);
      Ok (PrimFloat.ltb confidence K)
  else Ok false.

(** [_stage2]: the frequent rules that no other frequent rule proves
    unreliable. *)
Definition _stage2 (self : RhapsodyAlgorithm) (T : Z) (K : float) : res (list string) :=
  unrel_rules ←
    foldM (λ (unrel : gset string) r1,
             foldM (λ (unrel : gset string) r2,
                      if decide (r1 ≠ r2) then
                        b ← _proves_unreliability self r1 r2 T K;
                        Ok (if b : bool then {[r1]} ∪ unrel else unrel)
                      else Ok unrel)
                   unrel (freq_rules self))
          (∅ : gset string) (freq_rules self);
  Ok (filter (λ rule, rule ∉ unrel_rules) (freq_rules self)).

(** [_are_equivalent]: same [nUP] and one atom set inside the other. *)
Definition _are_equivalent (self : RhapsodyAlgorithm) (r1 r2 : string) : res bool :=
  n1 ← getitem (nUP self) r1;
  n2 ← getitem (nUP self) r2;
  if decide (n1 ≠ n2) then Ok false
  else
    let r1_atoms := atoms_of r1 in
    let r2_atoms := atoms_of r2 in
    Ok (bool_decide (r1_atoms ⊆ r2_atoms) || bool_decide (r2_atoms ⊆ r1_atoms)).

(** [_is_shorter]: [r1] has fewer atoms than [r2]. *)
Definition _is_shorter (r1 r2 : string) : bool :=
  bool_decide (size (atoms_of r1) < size (atoms_of r2))%nat.

(** [_stage3]: the reliable rules without a shorter equivalent, sorted by
    [nA]; [sorted] computes every key before it orders the list. *)
Definition _stage3 (self : RhapsodyAlgorithm) : res (list string) :=
  subsumed ←
    foldM (λ (subsumed : gset string) r1,
             foldM (λ (subsumed : gset string) r2,
                      if decide (r1 ≠ r2) then
                        e ← _are_equivalent self r1 r2;
                        Ok (if e && _is_shorter r2 r1 then {[r1]} ∪ subsumed else subsumed)
                      else Ok subsumed)
                   subsumed (rel_rules self))
          (∅ : gset string) (rel_rules self);
  let short_rules := filter (λ rule, rule ∉ subsumed) (rel_rules self) in
  keyed ← mapM (λ x, k ← getitem (nA self) x; Ok (k, x)) short_rules;
  Ok (snd <$> Py.sorted (λ a b : Z * string, a.1 <=? b.1) keyed).

(** The exception of [run_algorithm] on an object without data. *)
Definition no_data_error : error := ValueError "No data loaded. Please load data first.".

(** [run_algorithm]: the three stages, each result stored in the object. *)
Definition run_algorithm (self : RhapsodyAlgorithm) (T : Z) (K : float)
    : RhapsodyAlgorithm * res (list string * gmap string Z * gmap string Z) :=
  match data self with
  | None => (self, Raise no_data_error)
  | Some _ =>
      match _stage1 self T with
      | (self1, Raise e) => (self1, Raise e)
      | (self1, Ok (fr, up, a)) =>
          let self2 := set_stage1 self1 fr up a in
          match _stage2 self2 T K with
          | Raise e => (self2, Raise e)
          | Ok rr =>
              let self3 := set_rel_rules self2 rr in
              match _stage3 self3 with
              | Raise e => (self3, Raise e)
              | Ok final =>
                  let self4 := set_final_rules self3 final in
                  (self4, Ok (final_rules self4, nUP self4, nA self4))
              end
          end
      end
  end.

(** The standalone wrappers at the end of the file. *)
Definition stage1 (df : DataFrame) (T : Z) (selected : option (list string))
    : res (list string * gmap string Z * gmap string Z) :=
  match load_data_from_dataframe (__init__ selected) df with
  | (_, Raise e) => Raise e
  | (rhapsody, Ok _) => (_stage1 rhapsody T).2
  end.

Definition stage2 (fr : list string) (up a : gmap string Z) (T : Z) (K : float)
    : res (list string) :=
  _stage2 (set_stage1 (__init__ None) fr up a) T K.

Definition stage3 (rr : list string) (up a : gmap string Z) (fr : list string)
    : res (list string) :=
  _stage3 (set_rel_rules (set_stage1 (__init__ None) fr up a) rr).

Definition proves_unreliability (r1 r2 : string) (up : gmap string Z) (T : Z) (K : float)
    : res bool :=
  _proves_unreliability (set_stage1 (__init__ None) [] up ∅) r1 r2 T K.

Definition are_equivalent (r1 r2 : string) (up : gmap string Z) (fr : list string)
    : res bool :=
  _are_equivalent (set_stage1 (__init__ None) fr up ∅) r1 r2.

(** The object as [_stage1] leaves it once the transactions [log] are
    stored (source lines 115-116). *)
Definition with_transactions (self : RhapsodyAlgorithm) (df : DataFrame)
    (log : list (gset string)) : RhapsodyAlgorithm :=
  set_transactions
    (set_data self (setitem df "atoms" (AtomSet <$> log)) (working_columns self)) log.

(** The test of the inner loop of [_stage3] (source line 225). *)
Definition subsumption_test (self : RhapsodyAlgorithm) (r1 r2 : string) : res bool :=
  e ← _are_equivalent self r1 r2; Ok (e && _is_shorter r2 r1).

(** The dictionary of [get_rule_statistics]. *)
Record RuleStatistics := mkRuleStatistics {
  total_transactions : Z;
  frequent_rules_count : Z;
  reliable_rules_count : Z;
  final_rules_count : Z;
  statistics_working_columns : list string;
  rules_frequent : list string;
  rules_reliable : list string;
  rules_final : list string;
  statistics_nUP : gmap string Z;
  statistics_nA : gmap string Z
}.

Definition get_rule_statistics (self : RhapsodyAlgorithm) : RuleStatistics :=
  {| total_transactions := Z.of_nat (length (transactions self));
     frequent_rules_count := Z.of_nat (length (freq_rules self));
     reliable_rules_count := Z.of_nat (length (rel_rules self));
     final_rules_count := Z.of_nat (length (final_rules self));
     statistics_working_columns := working_columns self;
     rules_frequent := freq_rules self;
     rules_reliable := rel_rules self;
     rules_final := final_rules self;
     statistics_nUP := nUP self;
     statistics_nA := nA self |}.

(** [load_data]: as [load_data_from_dataframe] on the frame that
    [pd.read_csv] returns, [read_csv] here; every exception is caught and
    turned into the result [False]. *)
Definition load_data (self : RhapsodyAlgorithm) (read_csv : res DataFrame)
    : RhapsodyAlgorithm * bool :=
  match read_csv with
  | Raise _ => (self, false)
  | Ok df =>
      match selected_columns self with
      | Some (c :: cs) =>
          let selected := c :: cs in
          let missing_cols := filter (λ col, col ∉ columns df) selected in
          match missing_cols with
          | [] => (set_data self (project df selected) selected, true)
          | _ => (set_data self df (working_columns self), false)
          end
      | _ => (set_data self df (columns df), true)
      end
  end.

End Rhapsody.

(** ** The serving-time matcher: [policy_evaluator.py] *)
Module Evaluator.

(** A Python [dict] from strings to strings whose iteration order matters:
    the keys in order of first insertion. *)
Fixpoint dict_set (d : list (string * string)) (k v : string) : list (string * string) :=
  match d with
  | [] => [(k, v)]
  | (k', v') :: d' => if decide (k' = k) then (k, v) :: d' else (k', v') :: dict_set d' k v
  end.

(** [parse_rule]: the attribute-to-value dictionary of a rule. *)
Definition parse_rule (rule : string) : list (string * string) :=
  let atoms := Py.split " ∧ " rule in
  foldl (λ rule_dict atom,
           if Py.contains "=" atom then
             match Py.split1 "=" atom with
             | [attr; value] => dict_set rule_dict (Py.strip attr) (Py.strip value)
             | _ => rule_dict
             end
           else rule_dict)
        [] atoms.

(** The statistics attached to the rules: [{}] or the maps of the miner. *)
Record Statistics := mkStatistics {
  stat_nUP : gmap string Z;
  stat_nA : gmap string Z
}.

Record PolicyEvaluator := mkEvaluator {
  rules : list string;
  rule_statistics : option Statistics;
  available_attributes : gset string
}.

Definition __init__ (rules : list string) : PolicyEvaluator :=
  {| rules := rules; rule_statistics := None; available_attributes := ∅ |}.

(** [load_rules]: the rules and the attributes they mention. *)
Definition load_rules (self : PolicyEvaluator) (new_rules : list string) : PolicyEvaluator :=
  {| rules := new_rules;
     rule_statistics := rule_statistics self;
     available_attributes :=
       foldl (λ (acc : gset string) rule, acc ∪ list_to_set (fst <$> parse_rule rule))
             ∅ new_rules |}.

(** [request.get(attr, '').strip()] *)
Definition request_value (request : gmap string string) (attr : string) : string :=
  Py.strip (default "" (request !! attr)).

(** [rule_matches_request]: no attribute of the rule that the request fills
    in differs, and at least one attribute agrees. *)
Definition rule_matches_request (rule : string) (request : gmap string string) : bool :=
  let rule_attrs := parse_rule rule in
  if forallb (λ kv : string * string,
                let rv := request_value request kv.1 in
                if decide (rv = "") then true else bool_decide (rv = kv.2))
             rule_attrs
  then
    let matching_attrs :=
      length (filter (λ kv : string * string,
                        request_value request kv.1 ≠ "" ∧ request_value request kv.1 = kv.2)
                     rule_attrs) in
    bool_decide (0 < matching_attrs)%nat
  else false.

(** The dictionary that [evaluate_request] returns.  [rule_stat] is the
    entry ['rule_statistics'], present in a grant only: the [nUP] of the
    matching rule, or [None] for ['N/A']. *)
Record Decision := mkDecision {
  granted : bool;
  message : string;
  matching_rule : option string;
  request_details : gmap string string;
  rule_stat : option (option Z)
}.

(** [evaluate_request]: first matching rule wins. *)
Definition evaluate_request (self : PolicyEvaluator) (request : gmap string string) : Decision :=
  match rules self with
  | [] => mkDecision false "No policy rules available. Please load rules first."
            None request None
  | _ =>
      let has_attributes :=
        existsb (λ kv : string * string,
                   bool_decide (kv.1 ∈ available_attributes self)
                   && negb (bool_decide (Py.strip kv.2 = "")))
                (map_to_list request) in
      if negb has_attributes
      then mkDecision false "Please fill in at least one attribute." None request None
      else
        match List.find (λ rule, rule_matches_request rule request) (rules self) with
        | Some rule =>
            mkDecision true "Access Granted! Request matches a mined policy rule."
              (Some rule) request
              (Some (match rule_statistics self with
                     | Some st => stat_nUP st !! rule
                     | None => None
                     end))
        | None =>
            mkDecision false "Access Denied! No matching rule found in the mined policy."
              None request None
        end
  end.

(** [d[k]] and [d.get(k)] on an insertion-ordered dictionary. *)
Fixpoint dict_get (d : list (string * string)) (k : string) : option string :=
  match d with
  | [] => None
  | (k', v) :: d' => if decide (k' = k) then Some v else dict_get d' k
  end.

(** [batch_evaluate]: one decision for every request, in order. *)
Definition batch_evaluate (self : PolicyEvaluator) (requests : list (gmap string string))
    : list Decision :=
  evaluate_request self <$> requests.

(** [if k not in d: d[k] = 0] followed by [d[k] += 1]. *)
Definition incr `{Countable K} (d : gmap K Z) (k : K) : gmap K Z :=
  let d' := if decide (is_Some (d !! k)) then d else <[k := 0]> d in
  <[k := default 0 (d' !! k) + 1]> d'.

(** The result of [get_rule_coverage_stats]: the dictionary
    [{'error': 'No rules loaded'}] or the three statistics. *)
Inductive CoverageStats :=
  | NoRulesLoaded
  | Coverage (total_rules : Z) (rules_by_complexity : gmap Z Z)
             (attribute_distribution : gmap string Z).

(** [get_rule_coverage_stats]: the number of rules, the number of rules
    for every number of atoms, and the number of rules for every attribute. *)
Definition get_rule_coverage_stats (self : PolicyEvaluator) : CoverageStats :=
  match rules self with
  | [] => NoRulesLoaded
  | _ =>
      let by_complexity :=
        foldl (λ d rule, incr d (Z.of_nat (length (Py.split " ∧ " rule)))) ∅ (rules self) in
      let attr_counts :=
        foldl (λ d rule, foldl (λ d (kv : string * string), incr d kv.1) d (parse_rule rule))
              ∅ (rules self) in
      Coverage (Z.of_nat (length (rules self))) by_complexity attr_counts
  end.

(** The test of the inner loop of [find_conflicting_rules]: the two rules
    share an attribute, and [any] shared attribute has different values; both
    dictionaries have every attribute of [overlap], so no lookup fails. *)
Definition has_conflict (rule1 rule2 : string) : bool :=
  let rule1_attrs := parse_rule rule1 in
  let rule2_attrs := parse_rule rule2 in
  let overlap : gset string :=
    list_to_set (fst <$> rule1_attrs) ∩ list_to_set (fst <$> rule2_attrs) in
  if decide (overlap = ∅) then false
  else existsb (λ attr, bool_decide (dict_get rule1_attrs attr ≠ dict_get rule2_attrs attr))
               (elements overlap).

(** The two loops of [find_conflicting_rules]: every rule with every later
    rule of the list. *)
Fixpoint conflicting_pairs (rules : list string) : list (string * string) :=
  match rules with
  | [] => []
  | rule1 :: rest =>
      ((λ rule2, (rule1, rule2)) <$> filter (λ rule2, has_conflict rule1 rule2 = true) rest)
      ++ conflicting_pairs rest
  end.

Definition find_conflicting_rules (self : PolicyEvaluator) : list (string * string) :=
  conflicting_pairs (rules self).

(** [get_available_attributes]: [sorted(list(self.available_attributes))] *)
Definition get_available_attributes (self : PolicyEvaluator) : list string :=
  Py.sorted_str (elements (available_attributes self)).

Definition set_available_attributes (self : PolicyEvaluator) (attributes : list string)
    : PolicyEvaluator :=
  {| rules := rules self; rule_statistics := rule_statistics self;
     available_attributes := list_to_set attributes |}.

(** [evaluate_single_request]: a fresh evaluator for one request. *)
Definition evaluate_single_request (rules : list string) (request : gmap string string)
    : Decision :=
  evaluate_request (__init__ rules) request.

(** The step of the loop of [parse_rule]. *)
Definition parse_step (rule_dict : list (string * string)) (atom : string)
    : list (string * string) :=
  if Py.contains "=" atom then
    match Py.split1 "=" atom with
    | [attr; value] => dict_set rule_dict (Py.strip attr) (Py.strip value)
    | _ => rule_dict
    end
  else rule_dict.

(** The verdict of [evaluate_request] apart from the echoed request. *)
Definition verdict (d : Decision) : bool * string * option string * option (option Z) :=
  (granted d, message d, matching_rule d, rule_stat d).

End Evaluator.

(** ** The upload check of the server: [api_server.py] *)
Module Server.

Definition ALLOWED_EXTENSIONS : gset string := {[ "csv"; "txt" ]}.

(** [allowed_file]: the guard ['.' in filename] makes the index [[1]] safe. *)
Definition allowed_file (filename : string) : bool :=
  Py.contains "." filename &&
  match Py.rsplit1 "." filename with
  | [_; ext] => bool_decide (Py.lower ext ∈ ALLOWED_EXTENSIONS)
  | _ => false
  end.

End Server.

(** ** The pairwise marking loop shared by Stage 2 and Stage 3 *)
Section marking_loop.
Variable test : string → string → res bool.

(** The body of the inner [for r2] loop: [r1] is marked when [test] holds
    of it and a different rule [r2]. *)
Definition mark_step (r1 : string) (marked : gset string) (r2 : string) : res (gset string) :=
  if decide (r1 ≠ r2) then
    b ← test r1 r2;
    Ok (if b : bool then {[r1]} ∪ marked else marked)
  else Ok marked.

(** [for r1 in l1: for r2 in l2: ...] *)
Definition mark_loop (l1 l2 : list string) (marked : gset string) : res (gset string) :=
  foldM (λ marked r1, foldM (mark_step r1) marked l2) marked l1.

(** Every pair of distinct rules gets a verdict: no test raises. *)
Definition decided (l1 l2 : list string) : Prop :=
  ∀ r1 r2, r1 ∈ l1 → r2 ∈ l2 → r1 ≠ r2 → ∃ b, test r1 r2 = Ok b.

(** [r1] is marked by some other rule of [l2]. *)
Definition marked_by (l2 : list string) (r1 : string) : Prop :=
  ∃ r2, r2 ∈ l2 ∧ r2 ≠ r1 ∧ test r1 r2 = Ok true.

End marking_loop.

(** The order of [sorted(l, key=key)] for integer keys. *)
Definition key_le {A : Type} (key : A → Z) (x y : A) : bool := key x <=? key y.

(** ** Dictionaries of counters *)

(** A dictionary of counters: the entry of [k] is the number [cnt k], and
    there is no entry for a [k] that was never counted. *)
Definition counts `{Countable K} (d : gmap K Z) (cnt : K → nat) : Prop :=
  ∀ k, d !! k = if decide (cnt k = O) then None else Some (Z.of_nat (cnt k)).

(** ** Brackets of a binary64 rounding *)

(** [N / D] lies in [[q, q+1)] and [l] says where: on [q], below, at or
    above the middle. *)
Definition loc_ok (q : Z) (l : location) (N D : Z) : Prop :=
  q * D ≤ N < (q + 1) * D ∧
  match l with
  | loc_Exact => N = q * D
  | loc_Inexact c => N ≠ q * D ∧ (2 * N ?= (2 * q + 1) * D) = c
  end.

(** ** The conditions the specification names *)
Module Spec.
Import Rhapsody.

(** Section 4.3: [r2] proves [r1] unreliable when (i) the atoms of [r1] are
    among those of [r2], (ii) [nUP[r2] >= T] and (iii) the confidence
    [nUP[r2] / (nUP[r1] + nUP[r2])], Python's true division, is below [K]. *)
Definition proves_unreliable (up : gmap string Z) (T : Z) (K : float) (r1 r2 : string) : Prop :=
  atoms_of r1 ⊆ atoms_of r2 ∧
  ∃ n1 n2 confidence,
    up !! r1 = Some n1 ∧ up !! r2 = Some n2 ∧ T ≤ n2 ∧
    Py.truediv n2 (n1 + n2) = Ok confidence ∧ PrimFloat.ltb confidence K = true.

(** Section 4.4: equivalent rules have the same [nUP] and one atom set
    inside the other. *)
Definition equivalent (up : gmap string Z) (r1 r2 : string) : Prop :=
  (∃ n, up !! r1 = Some n ∧ up !! r2 = Some n) ∧
  (atoms_of r1 ⊆ atoms_of r2 ∨ atoms_of r2 ⊆ atoms_of r1).

(** The [nA] key of a rule that has one. *)
Definition nA_key (a : gmap string Z) (r : string) : Z := default 0 (a !! r).

(** [r] comes before [r'] in the order of [nA]. *)
Definition nA_le (a : gmap string Z) (r r' : string) : Prop :=
  ∃ k k', a !! r = Some k ∧ a !! r' = Some k' ∧ k ≤ k'.

(** [r2] has fewer atoms than [r1]. *)
Definition shorter (r2 r1 : string) : Prop :=
  (size (atoms_of r2) < size (atoms_of r1))%nat.

(** The brute-force count: the transactions that contain every atom of
    the itemset. *)
Definition occurrences (log : list (gset string)) (itemset : gset string) : Z :=
  Z.of_nat (length (filter (λ t, itemset ⊆ t) log)).

(** [min_support = T / len(transactions)], for a non-empty log. *)
Definition min_support (T : Z) (log : list (gset string)) : float :=
  PrimFloat.div (Py.float_of_Z T) (Py.float_of_Z (Z.of_nat (length log))).

(** The support of an itemset: its brute-force count as a fraction of the
    log, in binary64. *)
Definition support_of (log : list (gset string)) (itemset : gset string) : float :=
  PrimFloat.div (Py.float_of_Z (occurrences log itemset))
                (Py.float_of_Z (Z.of_nat (length log))).

(** The rule lists and maps an object holds: what a run publishes. *)
Definition published (self : RhapsodyAlgorithm)
    : list string * list string * list string * gmap string Z * gmap string Z :=
  (freq_rules self, rel_rules self, final_rules self, nUP self, nA self).

(** The atoms [attribute=value] of an access request. *)
Definition atoms_of_request (request : gmap string string) : gset string :=
  list_to_set ((λ kv : string * string, kv.1 +:+ "=" +:+ kv.2) <$> map_to_list request).

(** The thresholds of Scenario B: [K = 0.8] as the nearest binary64. *)
Definition K_scenario_B : float := 0x1.999999999999ap-1%float.

End Spec.

(** ** Concrete inputs *)
Module Examples.
Import Pandas Rhapsody.

(** Scenario A of section 8: the log [{a=1,b=2}, {a=1,b=2}, {a=1,b=3}]. *)
Definition scenario_A : DataFrame :=
  {| columns := ["a"; "b"];
     rows := [ {[ "a" := Text "1"; "b" := Text "2" ]};
               {[ "a" := Text "1"; "b" := Text "2" ]};
               {[ "a" := Text "1"; "b" := Text "3" ]} ] |}.

(** A frame with two columns and no row. *)
Definition empty_log : DataFrame := {| columns := ["a"; "b"]; rows := [] |}.

(** A frame with one row, the log [{a=1}]. *)
Definition one_row : DataFrame :=
  {| columns := ["a"]; rows := [ {[ "a" := Text "1" ]} ] |}.

(** One column [a] and 49 rows: the value [x] once, the value [y] 48 times. *)
Definition forty_nine : DataFrame :=
  {| columns := ["a"];
     rows := {[ "a" := Text "x" ]} :: replicate 48 {[ "a" := Text "y" ]} |}.

(** The transactions of [scenario_A] and of [forty_nine]. *)
Definition scenario_A_log : list (gset string) :=
  [ {[ "a=1"; "b=2" ]}; {[ "a=1"; "b=2" ]}; {[ "a=1"; "b=3" ]} ].

Definition forty_nine_log : list (gset string) :=
  {[ "a=x" ]} :: replicate 48 {[ "a=y" ]}.

(** A fresh object after [load_data_from_dataframe(df)]. *)
Definition loaded (df : DataFrame) : RhapsodyAlgorithm :=
  (load_data_from_dataframe (__init__ None) df).1.

End Examples.

(** * Properties *)

(** ** Loops that stop at the first exception *)
Section loops.
Context {A B : Type}.

Lemma foldM_cons (f : B → A → res B) (acc : B) (x : A) (l : list A) :
  foldM f acc (x :: l) = acc' ← f acc x; foldM f acc' l.
Proof. reflexivity. Qed.

Lemma foldM_app (f : B → A → res B) (acc : B) (l1 l2 : list A) :
  foldM f acc (l1 ++ l2) = acc' ← foldM f acc l1; foldM f acc' l2.
Proof.
  revert acc. induction l1 as [|x l1 IH]; intros acc; simpl; [done|].
  destruct (f acc x) as [acc'|e]; simpl; [apply IH | done].
Qed.

Lemma foldM_ext (f g : B → A → res B) (acc : B) (l : list A) :
  (∀ b x, x ∈ l → f b x = g b x) → foldM f acc l = foldM g acc l.
Proof.
  revert acc. induction l as [|x l IH]; intros acc Hfg; simpl; [done|].
  rewrite Hfg by left. destruct (g acc x) as [acc'|e]; simpl; [|done].
  apply IH. intros b y Hy. apply Hfg. by right.
Qed.

Lemma mapM_Ok_length (f : A → res B) (l : list A) (l' : list B) :
  mapM f l = Ok l' → length l' = length l.
Proof.
  revert l'. induction l as [|x l IH]; intros l'; simpl.
  - by intros [= <-].
  - destruct (f x) as [y|e]; simpl; [|done].
    destruct (mapM f l) as [ys|e]; simpl; [|done].
    intros [= <-]. simpl. f_equal. by apply IH.
Qed.

Lemma mapM_total (f : A → res B) (l : list A) :
  (∀ x, x ∈ l → ∃ y, f x = Ok y) → ∃ l', mapM f l = Ok l'.
Proof.
  induction l as [|x l IH]; intros Hf; simpl; [by eexists|].
  destruct (Hf x) as [y ->]; [left|]. simpl.
  destruct IH as [ys ->]; [intros z Hz; apply Hf; by right|].
  simpl. by eexists.
Qed.
End loops.

(** ** The marking loop *)
Section marking.
Variable test : string → string → res bool.

Lemma mark_step_ne r1 marked r2 :
  r1 ≠ r2 →
  mark_step test r1 marked r2 = b ← test r1 r2; Ok (if b : bool then {[r1]} ∪ marked else marked).
Proof. intros Hne. unfold mark_step. by destruct (decide (r1 ≠ r2)). Qed.

Lemma mark_step_eq r1 marked : mark_step test r1 marked r1 = Ok marked.
Proof. unfold mark_step. by destruct (decide (r1 ≠ r1)). Qed.

Lemma decided_cons_inv r1 r2 l2 : decided test [r1] (r2 :: l2) → decided test [r1] l2.
Proof. intros Hdec x y Hx Hy. apply Hdec; [done|by right]. Qed.

Lemma inner_loop_inv r1 l2 marked marked' :
  foldM (mark_step test r1) marked l2 = Ok marked' →
  decided test [r1] l2 ∧ ∀ r, r ∈ marked' ↔ r ∈ marked ∨ (r = r1 ∧ marked_by test l2 r1).
Proof.
  revert marked. induction l2 as [|r2 l2 IH]; intros marked.
  - intros [= <-]. split.
    + intros ?? _ H. by apply elem_of_nil in H.
    + intros r. split; [by left|]. intros [?|[_ (r2 & H & _)]]; [done|].
      by apply elem_of_nil in H.
  - rewrite foldM_cons. destruct (decide (r1 = r2)) as [<-|Hne].
    + rewrite mark_step_eq. simpl. intros Hrest. apply IH in Hrest as [Hdec Hchar]. split.
      * intros x y Hx Hy Hxy. apply list_elem_of_singleton in Hx as ->.
        apply elem_of_cons in Hy as [->|Hy]; [done|].
        apply Hdec; [by apply list_elem_of_singleton|done..].
      * intros r. rewrite Hchar. split.
        -- intros [?|[-> (y & Hy & ? & ?)]]; [by left|].
           right. split; [done|]. exists y. split_and!; [by right|done..].
        -- intros [?|[-> (y & Hy & Hyne & ?)]]; [by left|].
           apply elem_of_cons in Hy as [->|Hy]; [done|].
           right. split; [done|]. by exists y.
    + rewrite mark_step_ne by done.
      destruct (test r1 r2) as [b|e] eqn:Ht; simpl; [|done].
      intros Hrest. apply IH in Hrest as [Hdec Hchar]. split.
      * intros x y Hx Hy Hxy. apply list_elem_of_singleton in Hx as ->.
        apply elem_of_cons in Hy as [->|Hy]; [by eexists|].
        apply Hdec; [by apply list_elem_of_singleton|done..].
      * intros r. rewrite Hchar. split.
        -- intros [Hin|[-> (y & Hy & Hyne & Hty)]].
           ++ destruct b; [|by left].
              apply elem_of_union in Hin as [Hin|Hin]; [|by left].
              apply elem_of_singleton in Hin as ->. right. split; [done|].
              exists r2. split_and!; [by left|done|done].
           ++ right. split; [done|]. exists y. split_and!; [by right|done..].
        -- intros [Hin|[-> (y & Hy & Hyne & Hty)]].
           ++ left. destruct b; [apply elem_of_union; by right|done].
           ++ apply elem_of_cons in Hy as [->|Hy].
              ** left. rewrite Ht in Hty. injection Hty as ->.
                 apply elem_of_union. left. by apply elem_of_singleton.
              ** right. split; [done|]. by exists y.
Qed.

Lemma inner_loop_total r1 l2 marked :
  decided test [r1] l2 → ∃ marked', foldM (mark_step test r1) marked l2 = Ok marked'.
Proof.
  revert marked. induction l2 as [|r2 l2 IH]; intros marked Hdec; [by eexists|].
  rewrite foldM_cons. destruct (decide (r1 = r2)) as [<-|Hne].
  - rewrite mark_step_eq. simpl. eapply IH, decided_cons_inv, Hdec.
  - rewrite mark_step_ne by done.
    destruct (Hdec r1 r2) as [b ->]; [by left|by left|done|]. simpl.
    eapply IH, decided_cons_inv, Hdec.
Qed.

Lemma mark_loop_inv l1 l2 marked marked' :
  mark_loop test l1 l2 marked = Ok marked' →
  decided test l1 l2 ∧ ∀ r, r ∈ marked' ↔ r ∈ marked ∨ (r ∈ l1 ∧ marked_by test l2 r).
Proof.
  unfold mark_loop. revert marked. induction l1 as [|r1 l1 IH]; intros marked.
  - intros [= <-]. split.
    + intros ?? H. by apply elem_of_nil in H.
    + intros r. split; [by left|]. intros [?|[H _]]; [done|]. by apply elem_of_nil in H.
  - rewrite foldM_cons.
    destruct (foldM (mark_step test r1) marked l2) as [m1|e] eqn:Hin; simpl; [|done].
    intros Hrest. apply IH in Hrest as [Hdec Hchar].
    apply inner_loop_inv in Hin as [Hdec1 Hchar1]. split.
    + intros x y Hx Hy Hxy. apply elem_of_cons in Hx as [->|Hx].
      * apply Hdec1; [by apply list_elem_of_singleton|done..].
      * by apply Hdec.
    + intros r. rewrite Hchar, Hchar1. split.
      * intros [[?|[-> ?]]|[? ?]]; [by left|right|right]; (split; [|done]);
          [by left|by right].
      * intros [?|[Hr Hm]]; [by left; left|].
        apply elem_of_cons in Hr as [->|Hr]; [left; right|right]; done.
Qed.

Lemma mark_loop_total l1 l2 marked :
  decided test l1 l2 → ∃ marked', mark_loop test l1 l2 marked = Ok marked'.
Proof.
  unfold mark_loop. revert marked. induction l1 as [|r1 l1 IH]; intros marked Hdec;
    [by eexists|].
  rewrite foldM_cons. destruct (inner_loop_total r1 l2 marked) as [m1 ->].
  { intros x y Hx Hy. apply list_elem_of_singleton in Hx as ->. apply Hdec; [by left|done]. }
  simpl. apply IH. intros x y Hx Hy. apply Hdec; [by right|done].
Qed.

Lemma decided_mono l1 l2 l1' l2' :
  l1' ⊆ l1 → l2' ⊆ l2 → decided test l1 l2 → decided test l1' l2'.
Proof. intros H1 H2 Hdec x y Hx Hy. apply Hdec; [by apply H1|by apply H2]. Qed.
End marking.

(** ** Stage 2 *)
Section stage2_facts.
Import Rhapsody Spec.

Lemma stage2_unfold self T K :
  _stage2 self T K =
  unrel ← mark_loop (λ r1 r2, _proves_unreliability self r1 r2 T K)
            (freq_rules self) (freq_rules self) ∅;
  Ok (filter (λ rule, rule ∉ unrel) (freq_rules self)).
Proof. reflexivity. Qed.

Lemma getitem_Ok {V} (d : gmap string V) k v : getitem d k = Ok v ↔ d !! k = Some v.
Proof. unfold getitem. destruct (d !! k); split; intros [=]; by subst. Qed.

(** The verdict [True] of [_proves_unreliability] is the three conditions. *)
Lemma proves_unreliability_true self r1 r2 T K :
  _proves_unreliability self r1 r2 T K = Ok true ↔ proves_unreliable (nUP self) T K r1 r2.
Proof.
  unfold _proves_unreliability, proves_unreliable.
  destruct (decide (atoms_of r1 ⊆ atoms_of r2)) as [Hsub|Hsub]; [|by split; [|intros [? _]]].
  unfold getitem. destruct (nUP self !! r2) as [n2|] eqn:H2; simpl.
  - destruct (Z.ltb_spec n2 T) as [Hlt|Hge].
    + split; [done|]. intros (_ & m1 & m2 & c & _ & [= <-] & Hle & _). lia.
    + destruct (nUP self !! r1) as [n1|] eqn:H1; simpl.
      * destruct (Py.truediv n2 (n1 + n2)) as [c|e] eqn:Hdiv; simpl.
        -- split.
           ++ intros [= Hc]. split; [done|]. by exists n1, n2, c.
           ++ intros (_ & m1 & m2 & c' & [= <-] & [= <-] & _ & Hc' & Hlt).
              rewrite Hdiv in Hc'. injection Hc' as <-. by rewrite Hlt.
        -- split; [done|].
           intros (_ & m1 & m2 & c' & [= <-] & [= <-] & _ & Hc' & _).
           by rewrite Hdiv in Hc'.
      * split; [done|]. by intros (_ & m1 & m2 & c' & [=] & _).
  - split; [done|]. by intros (_ & m1 & m2 & c' & _ & [=] & _).
Qed.

(** With a count for every rule, non-negative counts and a positive
    threshold, no test of Stage 2 raises. *)
Lemma proves_unreliability_total self r1 r2 T K :
  (∃ n, nUP self !! r1 = Some n ∧ 0 ≤ n) →
  (∃ n, nUP self !! r2 = Some n ∧ 0 ≤ n) →
  0 < T →
  ∃ b, _proves_unreliability self r1 r2 T K = Ok b.
Proof.
  intros (n1 & H1 & Hn1) (n2 & H2 & Hn2) HT. unfold _proves_unreliability.
  destruct (decide (atoms_of r1 ⊆ atoms_of r2)); [|by eexists].
  unfold getitem. rewrite H2. simpl.
  destruct (Z.ltb_spec n2 T); [by eexists|].
  rewrite H1. simpl. unfold Py.truediv.
  destruct (decide (n1 + n2 = 0)); [lia|]. simpl. by eexists.
Qed.

Lemma proves_unreliability_nUP self self' r1 r2 T K :
  nUP self = nUP self' →
  _proves_unreliability self r1 r2 T K = _proves_unreliability self' r1 r2 T K.
Proof. unfold _proves_unreliability. by intros ->. Qed.

Lemma filter_all {A} (P : A → Prop) `{!∀ x, Decision (P x)} (l : list A) :
  (∀ x, x ∈ l → P x) → filter P l = l.
Proof.
  induction l as [|x l IH]; intros HP; [done|].
  rewrite filter_cons_True by (apply HP; left). f_equal. apply IH.
  intros y Hy. apply HP. by right.
Qed.

End stage2_facts.

Section stage2_claims.
Import Rhapsody Spec.

(** Stage 2 under the conditions Stage 1 establishes: it returns, and the
    set it removes is characterised by [marked_by]. *)
Lemma stage2_marks self T K :
  (∀ r, r ∈ freq_rules self → ∃ n, nUP self !! r = Some n ∧ 0 ≤ n) →
  0 < T →
  ∃ unrel : gset string,
    _stage2 self T K = Ok (filter (λ r, r ∉ unrel) (freq_rules self)) ∧
    ∀ r1, r1 ∈ unrel ↔
      r1 ∈ freq_rules self ∧
      ∃ r2, r2 ∈ freq_rules self ∧ r2 ≠ r1 ∧ proves_unreliable (nUP self) T K r1 r2.
Proof.
  intros Hup HT. rewrite stage2_unfold.
  set (test := λ r1 r2, _proves_unreliability self r1 r2 T K).
  destruct (mark_loop_total test (freq_rules self) (freq_rules self) ∅) as [unrel Hloop].
  { intros r1 r2 H1 H2 _. apply proves_unreliability_total; auto. }
  rewrite Hloop. simpl. exists unrel. split; [done|].
  apply mark_loop_inv in Hloop as [_ Hchar]. intros r1. rewrite Hchar.
  split.
  - intros [Hin|[Hin (r2 & H2 & Hne & Ht)]]; [by apply not_elem_of_empty in Hin|].
    split; [done|]. exists r2. split_and!; [done..|]. by apply proves_unreliability_true.
  - intros [Hin (r2 & H2 & Hne & Ht)]. right. split; [done|].
    exists r2. split_and!; [done..|]. by apply proves_unreliability_true.
Qed.



(** C8. Stage 2 is idempotent: filtering the reliable rules again, with the
    same [nUP] and thresholds and the reliable list as the set quantified
    over, removes nothing. *)
Theorem stage2_idempotent fr up a T K rel :
  stage2 fr up a T K = Ok rel → stage2 rel up a T K = Ok rel.
Proof.
  unfold stage2. rewrite !stage2_unfold. cbn [freq_rules set_stage1].
  set (self := set_stage1 (__init__ None) fr up a).
  set (self' := set_stage1 (__init__ None) rel up a).
  set (test := λ r1 r2, _proves_unreliability self r1 r2 T K).
  assert (Htest : (λ r1 r2, _proves_unreliability self' r1 r2 T K) = test).
  { reflexivity. }
  rewrite Htest.
  destruct (mark_loop test fr fr ∅) as [unrel|e] eqn:Hloop; simpl; [|done].
  intros [= <-]. apply mark_loop_inv in Hloop as [Hdec Hchar].
  set (rel := filter (λ rule, rule ∉ unrel) fr).
  assert (Hsub : rel ⊆ fr).
  { intros r Hr. by apply list_elem_of_filter in Hr as [_ ?]. }
  destruct (mark_loop_total test rel rel ∅) as [unrel' Hloop'].
  { by apply (decided_mono test fr fr). }
  rewrite Hloop'. simpl. f_equal. apply filter_all.
  intros r Hr Hr'. apply mark_loop_inv in Hloop' as [_ Hchar'].
  apply Hchar' in Hr' as [Hr'|[_ (r2 & H2 & Hne & Ht)]]; [by apply not_elem_of_empty in Hr'|].
  apply list_elem_of_filter in Hr as [Hnot Hin]. apply Hnot, Hchar. right.
  split; [done|]. exists r2. split_and!; [by apply Hsub|done..].
Qed.

(** Scenario B filtered twice. *)
Lemma stage2_idempotent_scenario_B :
  stage2 ["a=1 ∧ b=2"] {[ "a=1" := 3; "a=1 ∧ b=2" := 2 ]} ∅ 2 K_scenario_B
    = Ok ["a=1 ∧ b=2"].
Proof.
  apply (stage2_idempotent ["a=1"; "a=1 ∧ b=2"]). compute_done.
Defined.

End stage2_claims.

(** ** [sorted]: ordered, a permutation, and stable *)
Section sorted_facts.
Context {A : Type} (key : A → Z).

Lemma insert_sorted_perm (le : A → A → bool) x l : Py.insert_sorted le x l ≡ₚ x :: l.
Proof.
  induction l as [|y l IH]; simpl; [done|].
  destruct (le x y); [done|]. rewrite IH. apply Permutation_swap.
Qed.

Lemma sorted_perm (le : A → A → bool) l : Py.sorted le l ≡ₚ l.
Proof.
  induction l as [|x l IH]; simpl; [done|].
  unfold Py.sorted in *. simpl. rewrite insert_sorted_perm. by f_equiv.
Qed.

Lemma insert_sorted_ordered x l :
  StronglySorted (λ a b, key a ≤ key b) l →
  StronglySorted (λ a b, key a ≤ key b) (Py.insert_sorted (key_le key) x l).
Proof.
  induction 1 as [|y l Hl IH Hy]; simpl.
  - constructor; constructor.
  - unfold key_le at 1. destruct (Z.leb_spec (key x) (key y)) as [Hle|Hgt].
    + constructor; [by constructor|]. constructor; [done|].
      eapply Forall_impl; [exact Hy|]. intros z Hz. simpl in Hz. lia.
    + constructor; [done|]. rewrite insert_sorted_perm. constructor; [lia|done].
Qed.

Lemma sorted_ordered l : StronglySorted (λ a b, key a ≤ key b) (Py.sorted (key_le key) l).
Proof.
  induction l as [|x l IH]; [constructor|]. by apply insert_sorted_ordered.
Qed.

(** Stability: the elements of one key keep their order. *)
Lemma insert_sorted_stable v x l :
  filter (λ a, key a = v) (Py.insert_sorted (key_le key) x l) = filter (λ a, key a = v) (x :: l).
Proof.
  induction l as [|y l IH]; simpl; [done|].
  unfold key_le at 1. destruct (Z.leb_spec (key x) (key y)) as [Hle|Hgt]; [done|].
  rewrite filter_cons, IH, !filter_cons.
  destruct (decide (key y = v)), (decide (key x = v)); try done. lia.
Qed.

Lemma sorted_stable v l :
  filter (λ a, key a = v) (Py.sorted (key_le key) l) = filter (λ a, key a = v) l.
Proof.
  induction l as [|x l IH]; [done|].
  change (Py.sorted (key_le key) (x :: l)) with (Py.insert_sorted (key_le key) x (Py.sorted (key_le key) l)).
  by rewrite insert_sorted_stable, !filter_cons, IH.
Qed.

(** Sorting the pairs [(key x, x)] on the key is sorting on the key. *)
Lemma insert_sorted_keyed x (l : list A) :
  Py.insert_sorted (λ a b : Z * A, a.1 <=? b.1) (key x, x) ((λ y, (key y, y)) <$> l)
  = (λ y, (key y, y)) <$> Py.insert_sorted (key_le key) x l.
Proof.
  induction l as [|y l IH]; simpl; [done|].
  unfold key_le at 1. destruct (key x <=? key y); simpl; [done|]. f_equal. apply IH.
Qed.

Lemma sorted_keyed (l : list A) :
  snd <$> Py.sorted (λ a b : Z * A, a.1 <=? b.1) ((λ y, (key y, y)) <$> l)
  = Py.sorted (key_le key) l.
Proof.
  assert (Py.sorted (λ a b : Z * A, a.1 <=? b.1) ((λ y, (key y, y)) <$> l)
          = (λ y, (key y, y)) <$> Py.sorted (key_le key) l) as ->.
  { induction l as [|x l IH]; [done|].
    change (Py.sorted ?le ((λ y, (key y, y)) <$> x :: l))
      with (Py.insert_sorted le (key x, x) (Py.sorted le ((λ y, (key y, y)) <$> l))).
    rewrite IH. apply insert_sorted_keyed. }
  rewrite <-list_fmap_compose. apply list_fmap_id.
Qed.

End sorted_facts.

(** ** Stage 3 *)
Section stage3_facts.
Import Rhapsody Spec.

Lemma stage3_unfold self :
  _stage3 self =
  subsumed ← mark_loop (subsumption_test self) (rel_rules self) (rel_rules self) ∅;
  keyed ← mapM (λ x, k ← getitem (nA self) x; Ok (k, x))
               (filter (λ rule, rule ∉ subsumed) (rel_rules self));
  Ok (snd <$> Py.sorted (λ a b : Z * string, a.1 <=? b.1) keyed).
Proof.
  unfold _stage3, mark_loop. f_equal.
  apply foldM_ext. intros marked r1 _. apply foldM_ext. intros marked' r2 _.
  unfold mark_step, subsumption_test.
  destruct (decide (r1 ≠ r2)); [|done].
  by destruct (_are_equivalent self r1 r2).
Qed.

Lemma subsumption_test_true self r1 r2 :
  subsumption_test self r1 r2 = Ok true ↔ equivalent (nUP self) r1 r2 ∧ shorter r2 r1.
Proof.
  unfold subsumption_test, _are_equivalent, equivalent, shorter, _is_shorter, getitem.
  destruct (nUP self !! r1) as [n1|]; simpl;
    [|by split; [|intros [[(? & [=] & _) _] _]]].
  destruct (nUP self !! r2) as [n2|]; simpl;
    [|by split; [|intros [[(? & _ & [=]) _] _]]].
  destruct (decide (n1 ≠ n2)) as [Hne|Heq]; simpl.
  - split; [done|]. intros [[(n & [= <-] & [= <-]) _] _]. done.
  - apply dec_stable in Heq as <-. split.
    + intros [= H]. apply andb_true_iff in H as [Hsub Hsh].
      apply bool_decide_eq_true in Hsh. split; [|done]. split; [by exists n1|].
      apply orb_true_iff in Hsub as [H|H]; apply bool_decide_eq_true in H; auto.
    + intros [[_ Hsub] Hsh]. f_equal. apply andb_true_iff. split.
      * apply orb_true_iff. destruct Hsub; [left|right]; by apply bool_decide_eq_true.
      * by apply bool_decide_eq_true.
Qed.

Lemma subsumption_test_total self r1 r2 :
  is_Some (nUP self !! r1) → is_Some (nUP self !! r2) →
  ∃ b, subsumption_test self r1 r2 = Ok b.
Proof.
  intros [n1 H1] [n2 H2]. unfold subsumption_test, _are_equivalent, getitem.
  rewrite H1, H2. simpl. destruct (decide (n1 ≠ n2)); simpl; by eexists.
Qed.

Lemma keyed_total (a : gmap string Z) (l : list string) :
  (∀ r, r ∈ l → is_Some (a !! r)) →
  mapM (λ x, k ← getitem a x; Ok (k, x)) l = Ok ((λ x, (nA_key a x, x)) <$> l).
Proof.
  induction l as [|x l IH]; intros Hl; [done|].
  destruct (Hl x) as [k Hk]; [by left|].
  cbn [mapM fmap list_fmap]. rewrite IH by (intros r Hr; apply Hl; by right).
  unfold getitem, nA_key. by rewrite Hk.
Qed.

(** Stage 3 with a count and a key for every reliable rule: it returns the
    unmarked rules, sorted on their key. *)
Lemma stage3_marks self :
  (∀ r, r ∈ rel_rules self → is_Some (nUP self !! r) ∧ is_Some (nA self !! r)) →
  ∃ subsumed : gset string,
    _stage3 self = Ok (Py.sorted (key_le (nA_key (nA self)))
                         (filter (λ r, r ∉ subsumed) (rel_rules self))) ∧
    ∀ r1, r1 ∈ subsumed ↔
      r1 ∈ rel_rules self ∧
      ∃ r2, r2 ∈ rel_rules self ∧ r2 ≠ r1 ∧ equivalent (nUP self) r1 r2 ∧ shorter r2 r1.
Proof.
  intros Hmaps. rewrite stage3_unfold.
  destruct (mark_loop_total (subsumption_test self) (rel_rules self) (rel_rules self) ∅)
    as [subsumed Hloop].
  { intros r1 r2 H1 H2 _. apply subsumption_test_total; by apply Hmaps. }
  rewrite Hloop. simpl. exists subsumed. split.
  - rewrite keyed_total.
    + simpl. f_equal. apply sorted_keyed.
    + intros r Hr. apply list_elem_of_filter in Hr as [_ Hr]. by apply Hmaps.
  - apply mark_loop_inv in Hloop as [_ Hchar]. intros r1. rewrite Hchar. split.
    + intros [Hin|[Hin (r2 & H2 & Hne & Ht)]]; [by apply not_elem_of_empty in Hin|].
      apply subsumption_test_true in Ht as [Heq Hsh].
      split; [done|]. by exists r2.
    + intros [Hin (r2 & H2 & Hne & Heq & Hsh)]. right. split; [done|].
      exists r2. split_and!; [done..|]. by apply subsumption_test_true.
Qed.

End stage3_facts.

Section list_facts.
Context {A : Type}.

Lemma filter_ext_in (P Q : A → Prop) `{!∀ x, Decision (P x), !∀ x, Decision (Q x)} (l : list A) :
  (∀ x, x ∈ l → P x ↔ Q x) → filter P l = filter Q l.
Proof.
  induction l as [|x l IH]; intros HPQ; [done|].
  assert (filter P l = filter Q l) as Hl by (apply IH; intros y Hy; apply HPQ; by right).
  destruct (decide (P x)) as [HP|HP].
  - rewrite !filter_cons_True; [by f_equal| |done]. apply HPQ; [left|done].
  - rewrite !filter_cons_False; [done| |done]. intros HQ. apply HP, HPQ; [left|done].
Qed.

Lemma StronglySorted_impl_in (R R' : A → A → Prop) (l : list A) :
  (∀ x y, x ∈ l → y ∈ l → R x y → R' x y) →
  StronglySorted R l → StronglySorted R' l.
Proof.
  intros HR Hs. induction Hs as [|x l Hl IH Hx]; constructor.
  - apply IH. intros y z Hy Hz. apply HR; by right.
  - apply Forall_forall. intros y Hy. apply HR; [left|by right|].
    by eapply Forall_forall in Hx.
Qed.

End list_facts.

Section stage3_claims.
Import Rhapsody Spec.

(** C5. Stage 3 removes a reliable rule [r1] if and only if another reliable
    rule [r2 ≠ r1] has the same [nUP], an atom set related to that of [r1] by
    inclusion (either way), and fewer atoms; so no rule of the final list has
    a strictly shorter equivalent in the final list. *)
Theorem stage3_removes_exactly_the_subsumed self :
  (∀ r, r ∈ rel_rules self → is_Some (nUP self !! r) ∧ is_Some (nA self !! r)) →
  ∃ final,
    _stage3 self = Ok final ∧
    (∀ r1, r1 ∈ rel_rules self →
       (r1 ∉ final) ↔
       ∃ r2, r2 ∈ rel_rules self ∧ r2 ≠ r1 ∧ equivalent (nUP self) r1 r2 ∧ shorter r2 r1) ∧
    (∀ r1 r2, r1 ∈ final → r2 ∈ final →
       ¬ (equivalent (nUP self) r1 r2 ∧ shorter r2 r1)).
Proof.
  intros Hmaps. destruct (stage3_marks self Hmaps) as (subsumed & Hrun & Hchar).
  eexists. split; [exact Hrun|].
  assert (Hfinal : ∀ r, r ∈ Py.sorted (key_le (nA_key (nA self)))
                              (filter (λ r, r ∉ subsumed) (rel_rules self))
                        ↔ (r ∉ subsumed) ∧ r ∈ rel_rules self).
  { intros r. rewrite sorted_perm. apply (list_elem_of_filter (λ r, r ∉ subsumed)). }
  split.
  - intros r1 Hin. rewrite Hfinal. split.
    + intros Hnot. destruct (decide (r1 ∈ subsumed)) as [Hr|Hr].
      * by apply Hchar in Hr as [_ ?].
      * destruct Hnot. by split.
    + intros Hex [Hnot _]. apply Hnot, Hchar. by split.
  - intros r1 r2 H1 H2 [Heq Hsh]. apply Hfinal in H1 as [Hnot H1].
    apply Hfinal in H2 as [_ H2]. apply Hnot, Hchar. split; [done|].
    exists r2. split_and!; [done| |done..].
    intros ->. unfold shorter in Hsh. lia.
Qed.

(** Scenario C: two rules with the same [nUP] and a subset relation. *)
Lemma stage3_scenario_C :
  let self := set_rel_rules
                (set_stage1 (__init__ None) ["a=1"; "a=1 ∧ b=2"]
                   {[ "a=1" := 2; "a=1 ∧ b=2" := 2 ]} {[ "a=1" := 2; "a=1 ∧ b=2" := 2 ]})
                ["a=1"; "a=1 ∧ b=2"] in
  _stage3 self = Ok ["a=1"] ∧
  ∃ final,
    _stage3 self = Ok final ∧
    (∀ r1, r1 ∈ rel_rules self →
       (r1 ∉ final) ↔
       ∃ r2, r2 ∈ rel_rules self ∧ r2 ≠ r1 ∧ equivalent (nUP self) r1 r2 ∧ shorter r2 r1) ∧
    (∀ r1 r2, r1 ∈ final → r2 ∈ final →
       ¬ (equivalent (nUP self) r1 r2 ∧ shorter r2 r1)).
Proof.
  intros self. split; [compute_done|].
  apply (stage3_removes_exactly_the_subsumed self).
  intros r Hr. cbn in Hr.
  apply elem_of_cons in Hr as [->|Hr]; [split; by exists 2|].
  apply list_elem_of_singleton in Hr as ->. split; by exists 2.
Defined.

(** C6. The list Stage 3 returns is non-decreasing in [nA], and the rules of
    equal [nA] stand in it in the order of the reliable list. *)
Theorem stage3_sorted_by_nA_stable self :
  (∀ r, r ∈ rel_rules self → is_Some (nUP self !! r) ∧ is_Some (nA self !! r)) →
  ∃ final,
    _stage3 self = Ok final ∧
    StronglySorted (nA_le (nA self)) final ∧
    ∀ v, filter (λ r, nA self !! r = Some v) final
         = filter (λ r, nA self !! r = Some v ∧ r ∈ final) (rel_rules self).
Proof.
  intros Hmaps. destruct (stage3_marks self Hmaps) as (subsumed & Hrun & _).
  eexists. split; [exact Hrun|].
  set (key := nA_key (nA self)).
  set (short := filter (λ r, r ∉ subsumed) (rel_rules self)).
  assert (Hfinal : ∀ r, r ∈ Py.sorted (key_le key) short ↔ (r ∉ subsumed) ∧ r ∈ rel_rules self).
  { intros r. rewrite sorted_perm. apply (list_elem_of_filter (λ r, r ∉ subsumed)). }
  assert (Hkey : ∀ r v, r ∈ rel_rules self → nA self !! r = Some v ↔ key r = v).
  { intros r v Hr. destruct (Hmaps r Hr) as [_ [k Hk]]. unfold key, nA_key.
    rewrite Hk. simpl. split; [by intros [= ->]|by intros ->]. }
  split.
  - eapply StronglySorted_impl_in; [|apply sorted_ordered].
    intros x y Hx Hy Hle. apply Hfinal in Hx as [_ Hx]. apply Hfinal in Hy as [_ Hy].
    destruct (Hmaps x Hx) as [_ [kx Hkx]]. destruct (Hmaps y Hy) as [_ [ky Hky]].
    exists kx, ky. split_and!; [done..|].
    revert Hle. unfold key, nA_key. by rewrite Hkx, Hky.
  - intros v.
    rewrite (filter_ext_in _ (λ r, key r = v) (Py.sorted (key_le key) short)).
    2:{ intros r Hr. apply Hkey. by apply Hfinal in Hr as [_ ?]. }
    rewrite sorted_stable. subst short. rewrite list_filter_filter.
    apply filter_ext_in. intros r Hr. rewrite Hfinal, (Hkey r v Hr). tauto.
Qed.

(** Three rules, two of them with the same [nA]: the tie keeps the order of
    the reliable list. *)
Lemma stage3_sorted_example :
  let counts : gmap string Z := {[ "c=3" := 2; "a=1" := 1; "b=2" := 2 ]} in
  let self := set_rel_rules
                (set_stage1 (__init__ None) ["c=3"; "a=1"; "b=2"] counts counts)
                ["c=3"; "a=1"; "b=2"] in
  _stage3 self = Ok ["a=1"; "c=3"; "b=2"] ∧
  ∃ final,
    _stage3 self = Ok final ∧
    StronglySorted (nA_le (nA self)) final ∧
    ∀ v, filter (λ r, nA self !! r = Some v) final
         = filter (λ r, nA self !! r = Some v ∧ r ∈ final) (rel_rules self).
Proof.
  intros counts self. split; [compute_done|].
  apply (stage3_sorted_by_nA_stable self).
  intros r Hr. cbn in Hr.
  apply elem_of_cons in Hr as [->|Hr]; [split; by exists 2|].
  apply elem_of_cons in Hr as [->|Hr]; [split; by exists 1|].
  apply list_elem_of_singleton in Hr as ->. split; by exists 2.
Defined.

End stage3_claims.

(** ** The serving-time matcher *)
Section evaluator_claims.
Import Evaluator Spec.

(** C10. The matcher does not require the request to contain every atom of
    the rule: the rule [a=1 ∧ b=2] has two atoms, the request gives the
    matching value [1] for [a] and the empty value for [b], the rule matches
    and access is granted, though the atoms of the rule are not all among
    those of the request. *)
Theorem evaluator_grants_partial_match :
  ∃ (rule : string) (request : gmap string string),
    (2 ≤ size (Rhapsody.atoms_of rule))%nat ∧
    (∃ attr value, (attr, value) ∈ parse_rule rule ∧ request !! attr = Some value) ∧
    (∀ attr value, (attr, value) ∈ parse_rule rule →
       request !! attr = Some value ∨ request !! attr = Some "" ∨ request !! attr = None) ∧
    rule_matches_request rule request = true ∧
    granted (evaluate_request (load_rules (__init__ []) [rule]) request) = true ∧
    matching_rule (evaluate_request (load_rules (__init__ []) [rule]) request) = Some rule ∧
    ¬ (Rhapsody.atoms_of rule ⊆ atoms_of_request request).
Proof.
  exists "a=1 ∧ b=2", {[ "a" := "1"; "b" := "" ]}.
  assert (Hparse : parse_rule "a=1 ∧ b=2" = [("a", "1"); ("b", "2")]) by compute_done.
  split_and!.
  - compute_done.
  - exists "a", "1". rewrite Hparse. split; [left|reflexivity].
  - intros attr value. rewrite Hparse. intros Hin.
    apply elem_of_cons in Hin as [[= -> ->]|Hin]; [by left|].
    apply list_elem_of_singleton in Hin as [= -> ->]. right. by left.
  - compute_done.
  - compute_done.
  - compute_done.
  - compute_done.
Qed.

End evaluator_claims.

(** ** Stage 1 on concrete logs *)
Section stage1_examples.
Import Pandas Rhapsody Spec Examples.

(** Scenario A with [T = 2]: the frequent rules and their counts. *)
Lemma stage1_scenario_A :
  (_stage1 (loaded scenario_A) 2).2
  = Ok (["a=1"; "b=2"; "a=1 ∧ b=2"],
        {[ "a=1" := 3; "b=2" := 2; "a=1 ∧ b=2" := 2 ]},
        {[ "a=1" := 3; "b=2" := 2; "a=1 ∧ b=2" := 2 ]}).
Proof. compute_done. Qed.

Lemma scenario_A_transactions :
  mapM (create_atoms ["a"; "b"]) (rows scenario_A) = Ok scenario_A_log.
Proof. compute_done. Qed.

Lemma forty_nine_transactions :
  mapM (create_atoms ["a"]) (rows forty_nine) = Ok forty_nine_log.
Proof. compute_done. Qed.

(** C2, at the failing input.  In the log of 49 rows the atom [a=x] occurs
    once and is frequent for [T = 1]; its support [1/49], multiplied by 49, is
    [0.9999999999999999] in binary64, and [int] truncates it: [nUP] records
    0 where the brute-force count is 1. *)
Lemma stage1_nUP_below_count :
  mapM (create_atoms ["a"]) (rows forty_nine) = Ok forty_nine_log ∧
  occurrences forty_nine_log (atoms_of "a=x") = 1 ∧
  Py.int (PrimFloat.mul (support_of forty_nine_log (atoms_of "a=x")) (Py.float_of_Z 49)) = Ok 0 ∧
  stage1 forty_nine 1 None
  = Ok (["a=x"; "a=y"], {[ "a=x" := 0; "a=y" := 48 ]}, {[ "a=x" := 1; "a=y" := 48 ]}).
Proof. split_and!; compute_done. Qed.

(** C3, at the failing input: for the same log the second scan counts the
    one row that holds [a=x], and the count derived from the support is 0. *)
Lemma stage1_nA_differs_from_nUP :
  ∃ freq_rules nUP nA,
    stage1 forty_nine 1 None = Ok (freq_rules, nUP, nA) ∧
    "a=x" ∈ freq_rules ∧
    nUP !! "a=x" = Some 0 ∧
    nA !! "a=x" = Some 1.
Proof.
  exists ["a=x"; "a=y"], {[ "a=x" := 0; "a=y" := 48 ]}, {[ "a=x" := 1; "a=y" := 48 ]}.
  split_and!; compute_done.
Qed.

End stage1_examples.

(** ** Stage 1 *)
Section stage1_facts.
Import Pandas Rhapsody Spec.

Lemma stage1_built self df T log :
  data self = Some df →
  mapM (create_atoms (working_columns self)) (rows df) = Ok log →
  _stage1 self T =
  (with_transactions self df log,
   stage1_mine (with_transactions self df log) (setitem df "atoms" (AtomSet <$> log)) T).
Proof. intros Hdf Hlog. unfold _stage1. by rewrite Hdf, Hlog. Qed.

Lemma stage1_not_built self df T e :
  data self = Some df →
  mapM (create_atoms (working_columns self)) (rows df) = Raise e →
  _stage1 self T = (self, Raise e).
Proof. intros Hdf Hlog. unfold _stage1. by rewrite Hdf, Hlog. Qed.

Lemma filter_none {A} (P : A → Prop) `{!∀ x, Decision (P x)} (l : list A) :
  (∀ x, x ∈ l → ¬ P x) → filter P l = [].
Proof.
  induction l as [|x l IH]; intros HP; [done|].
  rewrite filter_cons_False by (apply HP; left). apply IH. intros y Hy. apply HP. by right.
Qed.

Lemma length_filter_fmap {A B} (f : A → B) (P : B → Prop) `{!∀ x, Decision (P x)} (l : list A) :
  length (filter P (f <$> l)) = length (filter (λ x, P (f x)) l).
Proof.
  induction l as [|x l IH]; [done|]. rewrite fmap_cons, !filter_cons.
  destruct (decide (P (f x))); simpl; by rewrite IH.
Qed.

(** The atoms of an encoded row are those of the transaction that are in
    the vocabulary. *)
Lemma row_items_transform (cols : list string) (t : gset string) (x : string) :
  x ∈ Mlxtend.row_items cols ((λ c, bool_decide (c ∈ t)) <$> cols) ↔ x ∈ cols ∧ x ∈ t.
Proof.
  unfold Mlxtend.row_items. rewrite elem_of_list_to_set.
  induction cols as [|c cols IH].
  - split; [intros H|intros [H _]]; by apply elem_of_nil in H.
  - cbn [fmap list_fmap zip zip_with]. rewrite filter_cons. simpl. destruct (decide (bool_decide (c ∈ t) = true)) as [Hc|Hc].
    + apply bool_decide_eq_true in Hc. rewrite fmap_cons, !elem_of_cons, IH. simpl.
      split; [intros [->|[? ?]]; auto|intros [[->|?] ?]; auto].
    + rewrite IH, elem_of_cons. split; [intros [? ?]; auto|].
      intros [[->|?] Ht]; [|done]. destruct Hc. by apply bool_decide_eq_true.
Qed.

Lemma elem_of_fit (log : list (gset string)) (x : string) :
  x ∈ Mlxtend.fit log ↔ x ∈ ⋃ log.
Proof.
  unfold Mlxtend.fit, Py.sorted_str. by rewrite sorted_perm, elem_of_elements.
Qed.

(** The count on the encoded frame is the brute-force count on the log. *)
Lemma count_encoded (log : list (gset string)) (itemset : gset string) :
  Z.of_nat (Mlxtend.count
              (Mlxtend.mkEncoded (Mlxtend.fit log)
                 (Mlxtend.transform (Mlxtend.fit log) log))
              itemset)
  = occurrences log itemset.
Proof.
  unfold Mlxtend.count, occurrences, Mlxtend.transform. simpl. f_equal.
  rewrite length_filter_fmap. f_equal. apply filter_ext_in. intros t Ht.
  split; intros Hsub x Hx.
  - by apply Hsub, row_items_transform in Hx as [_ ?].
  - apply row_items_transform. split; [|by apply Hsub].
    apply elem_of_fit, elem_of_union_list. exists t. split; [done|by apply Hsub].
Qed.

Lemma support_encoded (log : list (gset string)) (itemset : gset string) :
  Mlxtend.support
    (Mlxtend.mkEncoded (Mlxtend.fit log) (Mlxtend.transform (Mlxtend.fit log) log)) itemset
  = support_of log itemset.
Proof.
  unfold Mlxtend.support, support_of. rewrite count_encoded. simpl.
  unfold Mlxtend.transform. by rewrite length_fmap.
Qed.

(** A level none of whose candidates reaches the threshold ends the search. *)
Lemma levels_nothing_frequent fuel df ms k cands :
  (∀ c, c ∈ cands → PrimFloat.leb ms (Mlxtend.support df c) = false) →
  Mlxtend.levels fuel df ms k cands = [].
Proof.
  intros Hc. destruct fuel as [|fuel]; [done|]. simpl.
  rewrite filter_none; [done|]. intros [s c] Hin. simpl.
  apply list_elem_of_fmap in Hin as (c' & [= -> ->] & Hin). by rewrite Hc.
Qed.

End stage1_facts.

(** ** The bound on the levels of the itemset search *)
Section levels_fuel.

Lemma elem_of_candidates k (Fk : list (gset string)) (C : gset string) :
  C ∈ Mlxtend.candidates k Fk →
  ∃ A B, A ∈ Fk ∧ B ∈ Fk ∧ C = A ∪ B ∧ size C = S k.
Proof.
  unfold Mlxtend.candidates. intros HC.
  apply list_elem_of_filter in HC as [_ HC]. rewrite elem_of_remove_dups in HC.
  apply list_elem_of_bind in HC as (A & HC & HA).
  apply list_elem_of_bind in HC as (B & HC & HB).
  destruct (decide _) as [[_ Hsize]|_]; [|by apply elem_of_nil in HC].
  apply list_elem_of_singleton in HC as ->. by exists A, B.
Qed.

(** The level-wise search needs no more levels than the vocabulary has
    atoms: once the fuel exceeds what is left of them, more fuel changes
    nothing. *)
Lemma levels_more_fuel df ms (V : gset string) fuel : ∀ k cands,
  (∀ c, c ∈ cands → c ⊆ V ∧ size c = k) →
  (size V < k + fuel)%nat →
  Mlxtend.levels (S fuel) df ms k cands = Mlxtend.levels fuel df ms k cands.
Proof.
  induction fuel as [|fuel IH]; intros k cands Hc Hk.
  - destruct cands as [|c cands]; [done|].
    destruct (Hc c) as [Hsub Hsize]; [left|].
    apply subseteq_size in Hsub. lia.
  - cbn [Mlxtend.levels].
    set (Fk := filter _ _).
    destruct Fk as [|f Fk'] eqn:HFk; [done|]. f_equal. rewrite <-HFk.
    apply (IH (S k)); [|lia].
    intros c Hin. apply elem_of_candidates in Hin as (A & B & HA & HB & -> & Hsize).
    split; [|done].
    assert (Hin : ∀ X, X ∈ snd <$> Fk → X ⊆ V).
    { intros X HX. apply list_elem_of_fmap in HX as ([s X'] & -> & HX).
      subst Fk. apply list_elem_of_filter in HX as [_ HX].
      apply list_elem_of_fmap in HX as (c & [= _ ->] & HX). by apply Hc. }
    apply union_least; by apply Hin.
Qed.

Lemma size_list_to_set_le (l : list string) :
  (size (list_to_set l : gset string) ≤ length l)%nat.
Proof.
  induction l as [|x l IH]; cbn [list_to_set length].
  - rewrite size_empty. lia.
  - rewrite size_union_alt, size_singleton.
    assert (size (list_to_set l ∖ {[x]} : gset string) ≤ size (list_to_set l : gset string))%nat
      by (apply subseteq_size; intros y Hy; by apply elem_of_difference in Hy as [? _]).
    lia.
Qed.

(** The fuel of [apriori], one more than the number of columns, is enough. *)
Lemma apriori_fuel_enough df ms n :
  Mlxtend.levels (n + S (length (Mlxtend.enc_columns df))) df ms 1
    ((λ c, ({[c]} : gset string)) <$> Mlxtend.enc_columns df)
  = Mlxtend.levels (S (length (Mlxtend.enc_columns df))) df ms 1
      ((λ c, ({[c]} : gset string)) <$> Mlxtend.enc_columns df).
Proof.
  induction n as [|n IH]; [done|]. rewrite <-IH. cbn [Nat.add].
  apply (levels_more_fuel df ms (list_to_set (Mlxtend.enc_columns df))).
  - intros c Hc. apply list_elem_of_fmap in Hc as (a & -> & Ha).
    split; [|by rewrite size_singleton].
    apply singleton_subseteq_l. by apply elem_of_list_to_set.
  - pose proof (size_list_to_set_le (Mlxtend.enc_columns df)). lia.
Qed.

End levels_fuel.

(** ** Binary64 division of integers: the sign of the quotient

    The integers are below [2^53] in magnitude, where the conversion to
    binary64 is exact. *)
Section float_facts.

Lemma digits2_pos_bounds p :
  2 ^ (Z.pos (digits2_pos p) - 1) ≤ Z.pos p < 2 ^ Z.pos (digits2_pos p).
Proof.
  induction p as [p IH|p IH|]; simpl digits2_pos.
  - rewrite Pos2Z.inj_succ. replace (Z.succ (Z.pos (digits2_pos p)) - 1)
      with (Z.succ (Z.pos (digits2_pos p) - 1)) by lia.
    rewrite !Z.pow_succ_r by lia. lia.
  - rewrite Pos2Z.inj_succ. replace (Z.succ (Z.pos (digits2_pos p)) - 1)
      with (Z.succ (Z.pos (digits2_pos p) - 1)) by lia.
    rewrite !Z.pow_succ_r by lia. lia.
  - simpl. lia.
Qed.

Lemma digits2_pos_iter p k :
  digits2_pos (Pos.iter xO p k) = (digits2_pos p + k)%positive.
Proof.
  induction k as [|k IH] using Pos.peano_ind.
  - simpl. lia.
  - rewrite Pos.iter_succ. simpl. rewrite IH. lia.
Qed.

Lemma binary_round_aux_exact sx m e :
  digits2_pos m = 53%positive → -1074 ≤ e ≤ 971 →
  binary_round_aux prec emax sx (Z.pos m) e loc_Exact = S754_finite sx m e.
Proof.
  intros Hd He. unfold binary_round_aux, shr_fexp.
  match goal with |- context [shr _ e ?n] => assert (Hf : n = 0) end.
  { unfold fexp, emin, prec, emax. simpl Zdigits2. rewrite Hd. lia. }
  rewrite Hf. cbn [shr shr_record_of_loc round_nearest_even shr_m loc_of_shr_record].
  rewrite Hf. cbn [shr shr_record_of_loc shr_m].
  match goal with |- context [Z.leb e ?b] => destruct (Z.leb_spec e b) as [|Hgt] end; [done|].
  unfold emax, prec in Hgt. lia.
Qed.

Lemma Prim2SF_float_of_pos n :
  0 < n < 2 ^ 53 →
  ∃ m e, Prim2SF (Py.float_of_Z n) = S754_finite false m e ∧
         digits2_pos m = 53%positive ∧ -52 ≤ e ≤ 0.
Proof.
  intros Hn. unfold Py.float_of_Z. destruct (Z.ltb_spec n 0) as [|_]; [lia|].
  rewrite of_uint63_spec, Uint63.of_Z_spec.
  rewrite Z.mod_small by (change wB with (2 ^ 63); split; [lia|]; 
    apply Z.lt_trans with (2 ^ 53); [lia|done]).
  destruct n as [|p|p]; [lia| |lia]. simpl binary_normalize. unfold binary_round.
  pose proof (digits2_pos_bounds p) as [Hlo Hhi].
  assert (Hd : Z.pos (digits2_pos p) ≤ 53).
  { destruct (Z.le_gt_cases (Z.pos (digits2_pos p)) 53) as [|Hgt]; [done|].
    assert (2 ^ 53 ≤ 2 ^ (Z.pos (digits2_pos p) - 1)) by (apply Z.pow_le_mono_r; lia). lia. }
  assert (Hfexp : fexp prec emax (Z.pos (digits2_pos p) + 0) = Z.pos (digits2_pos p) - 53).
  { unfold fexp, emin, prec, emax. lia. }
  rewrite Hfexp. unfold shl_align.
  destruct (Z.pos (digits2_pos p) - 53 - 0) as [|k|k] eqn:Hk; [|lia|].
  - exists p, 0. split; [apply binary_round_aux_exact; lia|lia].
  - exists (Pos.iter xO p k), (Z.pos (digits2_pos p) - 53).
    assert (digits2_pos (Pos.iter xO p k) = 53%positive) by (rewrite digits2_pos_iter; lia).
    split; [apply binary_round_aux_exact; lia|lia].
Qed.

Lemma Prim2SF_float_of_neg n :
  - 2 ^ 53 < n < 0 → ∃ m e, Prim2SF (Py.float_of_Z n) = S754_finite true m e.
Proof.
  intros Hn. destruct (Prim2SF_float_of_pos (- n)) as (m & e & Hm & _); [lia|].
  exists m, e. unfold Py.float_of_Z in *.
  destruct (Z.ltb_spec n 0) as [_|]; [|lia].
  destruct (Z.ltb_spec (- n) 0) as [|_]; [lia|].
  by rewrite FloatAxioms.opp_spec, Hm.
Qed.

Lemma shr_1_nonneg mrs : 0 ≤ shr_m mrs → 0 ≤ shr_m (shr_1 mrs).
Proof. destruct mrs as [m r s]. destruct m as [|[p|p|]|[p|p|]]; simpl; lia. Qed.

Lemma iter_pos_preserves {A} (P : A → Prop) (f : A → A) :
  (∀ x, P x → P (f x)) → ∀ n x, P x → P (SpecFloat.iter_pos f n x).
Proof. intros Hf. induction n as [n IH|n IH|]; intros x Hx; simpl; auto. Qed.

Lemma shr_fexp_nonneg m e l :
  0 ≤ m → 0 ≤ shr_m (shr_fexp prec emax m e l).1.
Proof.
  intros Hm. unfold shr_fexp, shr.
  assert (0 ≤ shr_m (shr_record_of_loc m l)) by (by destruct l as [|[]]).
  match goal with |- context [match ?n with _ => _ end] => destruct n end; simpl; [done| |done].
  by apply (iter_pos_preserves (λ mrs, 0 ≤ shr_m mrs)); [apply shr_1_nonneg|].
Qed.

Lemma round_nearest_even_nonneg m l : 0 ≤ m → 0 ≤ round_nearest_even m l.
Proof.
  intros Hm. destruct l as [|[]]; simpl; [done| |done|lia].
  destruct (Z.even m); lia.
Qed.

(** Rounding a non-negative mantissa keeps the sign. *)
Lemma binary_round_aux_sign sx mx ex lx :
  0 ≤ mx →
  SFleb (binary_round_aux prec emax sx mx ex lx) (S754_zero false) = sx
  ∨ binary_round_aux prec emax sx mx ex lx = S754_zero sx.
Proof.
  intros Hm. unfold binary_round_aux.
  pose proof (shr_fexp_nonneg mx ex lx Hm) as H1.
  destruct (shr_fexp prec emax mx ex lx) as [mrs' e']. simpl in H1.
  pose proof (shr_fexp_nonneg _ e' loc_Exact
                (round_nearest_even_nonneg _ (loc_of_shr_record mrs') H1)) as H2.
  destruct (shr_fexp prec emax _ e' loc_Exact) as [mrs'' e'']. simpl in H2.
  destruct (shr_m mrs'') as [|m|m]; [by right| |lia].
  left. by destruct (Z.leb e'' (emax - prec)), sx.
Qed.

Lemma SFdiv_core_nonneg m1 e1 m2 e2 :
  0 ≤ (SFdiv_core_binary prec emax (Z.pos m1) e1 (Z.pos m2) e2).1.1.
Proof.
  unfold SFdiv_core_binary.
  match goal with |- context [Z.div_eucl ?a ?b] =>
    assert (0 ≤ a) as Ha; [|pose proof (Z.div_pos a b Ha ltac:(lia)) as Hq;
      unfold Z.div in Hq; destruct (Z.div_eucl a b)] end; [|done].
  match goal with |- context [match ?s with _ => _ end] => destruct s end; [lia| |lia].
  apply Z.shiftl_nonneg. lia.
Qed.

(** A quotient of a non-positive by a positive integer is not above zero. *)
Lemma truediv_nonpositive (T n : Z) :
  - 2 ^ 53 < T ≤ 0 → 0 < n < 2 ^ 53 →
  PrimFloat.leb (PrimFloat.div (Py.float_of_Z T) (Py.float_of_Z n)) 0 = true.
Proof.
  intros HT Hn. rewrite FloatAxioms.leb_spec, FloatAxioms.div_spec.
  destruct (Prim2SF_float_of_pos n Hn) as (m2 & e2 & -> & _).
  change (Prim2SF 0) with (S754_zero false).
  destruct (decide (T = 0)) as [->|HT0]; [done|].
  destruct (Prim2SF_float_of_neg T) as (m1 & e1 & ->); [lia|].
  unfold SF64div, SFdiv.
  pose proof (SFdiv_core_nonneg m1 e1 m2 e2) as Hq.
  destruct (SFdiv_core_binary prec emax (Z.pos m1) e1 (Z.pos m2) e2) as [[mz ez] lz].
  simpl in Hq. destruct (binary_round_aux_sign (xorb true false) mz ez lz Hq) as [H|H].
  - exact H.
  - by rewrite H.
Qed.

Lemma shr_1_div2 mrs : 0 ≤ shr_m mrs → shr_m (shr_1 mrs) = shr_m mrs / 2.
Proof.
  destruct mrs as [m r s]. destruct m as [|[p|p|]|[p|p|]]; cbn [shr_1 shr_m]; intros Hm;
    try lia; try done.
  - apply Z.div_unique with 1; lia.
  - apply Z.div_unique with 0; lia.
Qed.

Lemma iter_shr_1_div p : ∀ mrs,
  0 ≤ shr_m mrs → shr_m (SpecFloat.iter_pos shr_1 p mrs) = shr_m mrs / 2 ^ Z.pos p.
Proof.
  induction p as [p IH|p IH|]; intros mrs Hm; simpl SpecFloat.iter_pos.
  - assert (0 ≤ shr_m (shr_1 mrs)) by (by apply shr_1_nonneg).
    assert (0 ≤ shr_m (SpecFloat.iter_pos shr_1 p (shr_1 mrs)))
      by (by apply (iter_pos_preserves (λ mrs, 0 ≤ shr_m mrs)); [apply shr_1_nonneg|]).
    rewrite !IH, shr_1_div2 by done.
    replace (Z.pos p~1) with (Z.succ (2 * Z.pos p)) by lia.
    rewrite Z.pow_succ_r, Z.pow_twice_r by lia.
    rewrite !Z.div_div by lia. f_equal; lia.
  - assert (0 ≤ shr_m (SpecFloat.iter_pos shr_1 p mrs))
      by (by apply (iter_pos_preserves (λ mrs, 0 ≤ shr_m mrs)); [apply shr_1_nonneg|]).
    rewrite !IH by done.
    replace (Z.pos p~0) with (2 * Z.pos p) by lia.
    rewrite Z.pow_twice_r. rewrite !Z.div_div by lia. done.
  - rewrite shr_1_div2 by done. done.
Qed.

(** Away from the subnormal range, the shift to the target precision keeps
    a positive mantissa positive. *)
Lemma shr_fexp_pos m e l :
  0 < m → -1022 ≤ e →
  0 < shr_m (shr_fexp prec emax m e l).1 ∧ -1022 ≤ (shr_fexp prec emax m e l).2.
Proof.
  intros Hm He. destruct m as [|p|p]; [lia| |lia].
  unfold shr_fexp, shr. simpl Zdigits2.
  assert (Hsm : shr_m (shr_record_of_loc (Z.pos p) l) = Z.pos p) by (by destruct l as [|[]]).
  pose proof (digits2_pos_bounds p) as [Hlo Hhi].
  match goal with |- context [match ?n with _ => _ end] =>
    assert (Hn : n = Z.pos (digits2_pos p) - 53) by (unfold fexp, emin, prec, emax; lia);
    destruct n as [|k|k] eqn:Hk end; simpl; rewrite ?Hsm; [lia| |lia].
  split; [|lia]. rewrite iter_shr_1_div by (rewrite Hsm; lia). rewrite Hsm.
  apply Z.div_str_pos. split; [lia|].
  apply Z.le_trans with (2 ^ (Z.pos (digits2_pos p) - 1)); [|done].
  apply Z.pow_le_mono_r; lia.
Qed.

(** Rounding a positive mantissa away from the subnormal range gives a
    positive number. *)
Lemma binary_round_aux_pos mx ex lx :
  0 < mx → -1022 ≤ ex →
  SFleb (binary_round_aux prec emax false mx ex lx) (S754_zero false) = false.
Proof.
  intros Hm He. unfold binary_round_aux.
  pose proof (shr_fexp_pos mx ex lx Hm He) as [H1 He1].
  destruct (shr_fexp prec emax mx ex lx) as [mrs' e']. simpl in H1, He1.
  assert (0 < round_nearest_even (shr_m mrs') (loc_of_shr_record mrs')) as Hr.
  { destruct (loc_of_shr_record mrs') as [|[]]; simpl; try lia.
    destruct (Z.even (shr_m mrs')); lia. }
  pose proof (shr_fexp_pos _ e' loc_Exact Hr He1) as [H2 _].
  destruct (shr_fexp prec emax _ e' loc_Exact) as [mrs'' e'']. simpl in H2.
  destruct (shr_m mrs'') as [|m|m]; [lia| |lia].
  by destruct (Z.leb e'' (emax - prec)).
Qed.

(** A quotient of positive integers is above zero. *)
Lemma truediv_positive (T n : Z) :
  0 < T < 2 ^ 53 → 0 < n < 2 ^ 53 →
  PrimFloat.leb (PrimFloat.div (Py.float_of_Z T) (Py.float_of_Z n)) 0 = false.
Proof.
  intros HT Hn. rewrite FloatAxioms.leb_spec, FloatAxioms.div_spec.
  destruct (Prim2SF_float_of_pos T HT) as (m1 & e1 & -> & Hd1 & He1).
  destruct (Prim2SF_float_of_pos n Hn) as (m2 & e2 & -> & Hd2 & He2).
  change (Prim2SF 0) with (S754_zero false).
  unfold SF64div, SFdiv, SFdiv_core_binary. simpl Zdigits2. rewrite Hd1, Hd2.
  pose proof (digits2_pos_bounds m1) as [Hlo1 _]. rewrite Hd1 in Hlo1.
  pose proof (digits2_pos_bounds m2) as [_ Hhi2]. rewrite Hd2 in Hhi2.
  match goal with |- context [Z.min ?a ?b] =>
    assert (He' : Z.min a b = e1 - e2 - 53) by (unfold fexp, emin, prec, emax; lia);
    rewrite He' end.
  replace (e1 - e2 - (e1 - e2 - 53)) with 53 by lia.
  assert (Hq : 0 < Z.shiftl (Z.pos m1) 53 / Z.pos m2).
  { apply Z.div_str_pos. split; [lia|]. rewrite Z.shiftl_mul_pow2 by lia.
    change (2 ^ (53 - 1)) with 4503599627370496 in Hlo1.
    change (2 ^ 53) with 9007199254740992 in *. lia. }
  unfold Z.div in Hq.
  destruct (Z.div_eucl (Z.shiftl (Z.pos m1) 53) (Z.pos m2)) as [q r].
  apply binary_round_aux_pos; [done|lia].
Qed.

End float_facts.

(** ** Binary64 division of integers: the order of the quotients

    A quotient of integers below [2^53] is rounded to within half a unit in
    the last place; for counts [c ≤ n] this keeps [c / n] and [T / n] apart
    whenever [c < T]. *)
Section float_order.

Lemma pos_iter_xO p k : Z.pos (Pos.iter xO p k) = Z.pos p * 2 ^ Z.pos k.
Proof.
  induction k as [|k IH] using Pos.peano_ind.
  - simpl. lia.
  - rewrite Pos.iter_succ, Pos2Z.inj_xO, IH, Pos2Z.inj_succ, Z.pow_succ_r by lia. lia.
Qed.

(** The binary64 form of a positive integer below [2^53]: a mantissa of 53
    digits and the exponent that makes the value exact. *)
Lemma Prim2SF_float_of_pos_value n :
  0 < n < 2 ^ 53 →
  ∃ m e, Prim2SF (Py.float_of_Z n) = S754_finite false m e ∧
         2 ^ 52 ≤ Z.pos m < 2 ^ 53 ∧ -52 ≤ e ≤ 0 ∧ Z.pos m = n * 2 ^ (- e).
Proof.
  intros Hn. unfold Py.float_of_Z. destruct (Z.ltb_spec n 0) as [|_]; [lia|].
  rewrite of_uint63_spec, Uint63.of_Z_spec.
  rewrite Z.mod_small by (change wB with (2 ^ 63); split; [lia|];
    apply Z.lt_trans with (2 ^ 53); [lia|done]).
  destruct n as [|p|p]; [lia| |lia]. simpl binary_normalize. unfold binary_round.
  pose proof (digits2_pos_bounds p) as [Hlo Hhi].
  assert (Hd : Z.pos (digits2_pos p) ≤ 53).
  { destruct (Z.le_gt_cases (Z.pos (digits2_pos p)) 53) as [|Hgt]; [done|].
    assert (2 ^ 53 ≤ 2 ^ (Z.pos (digits2_pos p) - 1)) by (apply Z.pow_le_mono_r; lia). lia. }
  assert (Hfexp : fexp prec emax (Z.pos (digits2_pos p) + 0) = Z.pos (digits2_pos p) - 53).
  { unfold fexp, emin, prec, emax. lia. }
  rewrite Hfexp. unfold shl_align.
  destruct (Z.pos (digits2_pos p) - 53 - 0) as [|k|k] eqn:Hk; [|lia|].
  - assert (Hd53 : digits2_pos p = 53%positive) by lia. rewrite Hd53 in Hlo, Hhi.
    exists p, 0. split; [apply binary_round_aux_exact; lia|].
    split; [done|]. split; [lia|]. simpl. lia.
  - assert (Hd53 : digits2_pos (Pos.iter xO p k) = 53%positive)
      by (rewrite digits2_pos_iter; lia).
    pose proof (digits2_pos_bounds (Pos.iter xO p k)) as Hb. rewrite Hd53 in Hb.
    exists (Pos.iter xO p k), (Z.pos (digits2_pos p) - 53).
    split; [apply binary_round_aux_exact; lia|].
    split; [done|]. split; [lia|]. rewrite pos_iter_xO. f_equal. f_equal. lia.
Qed.

Lemma new_location_ok m2 q r :
  0 < m2 → 0 ≤ r < m2 → loc_ok q (new_location m2 r) (q * m2 + r) m2.
Proof.
  intros Hm Hr. split; [lia|]. unfold new_location.
  destruct (Z.even m2) eqn:Heven.
  - unfold new_location_even.
    match goal with |- context [Z.eqb ?a ?b] => destruct (Z.eqb_spec a b) as [->|Hr0] end;
      [lia|].
    split; [lia|].
    destruct (Z.compare_spec (2 * r) m2), (Z.compare_spec (2 * (q * m2 + r)) ((2 * q + 1) * m2));
      try done; lia.
  - unfold new_location_odd.
    match goal with |- context [Z.eqb ?a ?b] => destruct (Z.eqb_spec a b) as [->|Hr0] end;
      [lia|].
    split; [lia|].
    assert (Hodd : Z.odd m2 = true) by (by rewrite <-Z.negb_even, Heven).
    apply Z.odd_spec in Hodd as [h Hh].
    destruct (Z.compare_spec (2 * r + 1) m2), (Z.compare_spec (2 * (q * m2 + r)) ((2 * q + 1) * m2));
      try done; lia.
Qed.

Lemma round_nearest_even_ok q l N D :
  0 < D → loc_ok q l N D →
  2 * Z.abs (round_nearest_even q l * D - N) ≤ D ∧ q ≤ round_nearest_even q l ≤ q + 1.
Proof.
  intros HD [Hq Hl]. destruct l as [|[]]; cbn [round_nearest_even].
  - subst N. split; lia.
  - destruct Hl as [Hne Hc]. apply Z.compare_eq in Hc. destruct (Z.even q); cbv iota; split; lia.
  - destruct Hl as [Hne Hc]. rewrite Z.compare_lt_iff in Hc. split; lia.
  - destruct Hl as [Hne Hc]. rewrite Z.compare_gt_iff in Hc. split; lia.
Qed.

Lemma loc_of_shr_record_of_loc q l : loc_of_shr_record (shr_record_of_loc q l) = l.
Proof. by destruct l as [|[]]. Qed.

Lemma shr_m_record_of_loc q l : shr_m (shr_record_of_loc q l) = q.
Proof. by destruct l as [|[]]. Qed.

(** One more bit shifted out: the bracket is twice as wide. *)
Lemma shr_1_ok q l N D :
  0 ≤ q → 0 < D → loc_ok q l N D →
  loc_ok (shr_m (shr_1 (shr_record_of_loc q l)))
         (loc_of_shr_record (shr_1 (shr_record_of_loc q l))) N (2 * D) ∧
  shr_m (shr_1 (shr_record_of_loc q l)) = q / 2.
Proof.
  intros Hq HD [Hb Hl].
  assert (Hdiv : ∀ h, q = 2 * h ∨ q = 2 * h + 1 → q / 2 = h).
  { intros h [-> | ->]; symmetry; [apply Z.div_unique with 0|apply Z.div_unique with 1]; lia. }
  destruct q as [|[p|p|]|p]; [| | | |lia].
  - (* q = 0 *)
    destruct l as [|c]; [|destruct Hl as [Hne Hc]; destruct c]; cbn;
      (split; [split; [lia|]|done]).
    + lia.
    + split; [lia|]. apply Z.compare_eq in Hc. apply Z.compare_lt_iff. lia.
    + split; [lia|]. rewrite Z.compare_lt_iff in Hc. apply Z.compare_lt_iff. lia.
    + split; [lia|]. rewrite Z.compare_gt_iff in Hc. apply Z.compare_lt_iff. lia.
  - (* q = 2p + 1 *)
    rewrite (Hdiv (Z.pos p)) by (right; lia).
    destruct l as [|c]; [|destruct Hl as [Hne Hc]; destruct c]; cbn;
      (split; [split; [lia|]|done]).
    + split; [lia|]. apply Z.compare_eq_iff. lia.
    + split; [lia|]. apply Z.compare_eq in Hc. apply Z.compare_gt_iff. lia.
    + split; [lia|]. rewrite Z.compare_lt_iff in Hc. apply Z.compare_gt_iff. lia.
    + split; [lia|]. rewrite Z.compare_gt_iff in Hc. apply Z.compare_gt_iff. lia.
  - (* q = 2p *)
    rewrite (Hdiv (Z.pos p)) by (left; lia).
    destruct l as [|c]; [|destruct Hl as [Hne Hc]; destruct c]; cbn;
      (split; [split; [lia|]|done]).
    + lia.
    + split; [lia|]. apply Z.compare_eq in Hc. apply Z.compare_lt_iff. lia.
    + split; [lia|]. rewrite Z.compare_lt_iff in Hc. apply Z.compare_lt_iff. lia.
    + split; [lia|]. rewrite Z.compare_gt_iff in Hc. apply Z.compare_lt_iff. lia.
  - (* q = 1 *)
    rewrite (Hdiv 0) by (right; lia).
    destruct l as [|c]; [|destruct Hl as [Hne Hc]; destruct c]; cbn;
      (split; [split; [lia|]|done]).
    + split; [lia|]. apply Z.compare_eq_iff. lia.
    + split; [lia|]. apply Z.compare_eq in Hc. apply Z.compare_gt_iff. lia.
    + split; [lia|]. rewrite Z.compare_lt_iff in Hc. apply Z.compare_gt_iff. lia.
    + split; [lia|]. rewrite Z.compare_gt_iff in Hc. apply Z.compare_gt_iff. lia.
Qed.

(** A mantissa of 53 or 54 digits: the shift to precision is by no or one
    bit. *)
Lemma shr_fexp_53_54 m e l :
  2 ^ 52 ≤ m < 2 ^ 54 → -1022 ≤ e →
  shr_fexp prec emax m e l
  = if m <? 2 ^ 53 then (shr_record_of_loc m l, e)
    else (shr_1 (shr_record_of_loc m l), e + 1).
Proof.
  intros Hm He. destruct m as [|p|p]; [lia| |lia].
  pose proof (digits2_pos_bounds p) as [Hlo Hhi].
  unfold shr_fexp, shr. simpl Zdigits2.
  destruct (Z.ltb_spec (Z.pos p) (2 ^ 53)) as [Hlt|Hge].
  - assert (Hd : Z.pos (digits2_pos p) = 53).
    { destruct (Z.lt_trichotomy (Z.pos (digits2_pos p)) 53) as [H|[H|H]]; [|done|].
      - assert (2 ^ Z.pos (digits2_pos p) ≤ 2 ^ 52) by (apply Z.pow_le_mono_r; lia). lia.
      - assert (2 ^ 53 ≤ 2 ^ (Z.pos (digits2_pos p) - 1)) by (apply Z.pow_le_mono_r; lia). lia. }
    match goal with |- context [match ?n with _ => _ end] =>
      assert (Hn : n = 0) by (unfold fexp, emin, prec, emax; lia); rewrite Hn end.
    done.
  - assert (Hd : Z.pos (digits2_pos p) = 54).
    { destruct (Z.lt_trichotomy (Z.pos (digits2_pos p)) 54) as [H|[H|H]]; [|done|].
      - assert (2 ^ Z.pos (digits2_pos p) ≤ 2 ^ 53) by (apply Z.pow_le_mono_r; lia). lia.
      - assert (2 ^ 54 ≤ 2 ^ (Z.pos (digits2_pos p) - 1)) by (apply Z.pow_le_mono_r; lia). lia. }
    match goal with |- context [match ?n with _ => _ end] =>
      assert (Hn : n = 1) by (unfold fexp, emin, prec, emax; lia); rewrite Hn end.
    done.
Qed.

(** Rounding a mantissa of 53 or 54 digits with its location: a normal
    number within half a unit in the last place of the exact value [N / D]
    (in units of [2 ^ ez]). *)
Lemma binary_round_aux_bound q ez l N D :
  2 ^ 52 ≤ q < 2 ^ 54 → -1022 ≤ ez ≤ 900 → 0 < D → loc_ok q l N D →
  ∃ m k, binary_round_aux prec emax false q ez l = S754_finite false m (ez + k) ∧
         0 ≤ k ≤ 2 ∧ 2 ^ 52 ≤ Z.pos m < 2 ^ 53 ∧
         2 * Z.abs (Z.pos m * (2 ^ k * D) - N) ≤ 2 ^ k * D.
Proof.
  intros Hq Hez HD Hloc. unfold binary_round_aux.
  rewrite shr_fexp_53_54 by lia.
  (* the state after the first shift *)
  assert (∃ q1 l1 k1,
            (if q <? 2 ^ 53 then (shr_record_of_loc q l, ez)
             else (shr_1 (shr_record_of_loc q l), ez + 1))
            = (shr_record_of_loc q1 l1, ez + k1) ∧
            0 ≤ k1 ≤ 1 ∧ 2 ^ 52 ≤ q1 < 2 ^ 53 ∧ loc_ok q1 l1 N (2 ^ k1 * D))
    as (q1 & l1 & k1 & -> & Hk1 & Hq1 & Hloc1).
  { destruct (Z.ltb_spec q (2 ^ 53)) as [Hlt|Hge].
    - exists q, l, 0. rewrite Z.add_0_r. split_and!; [done|lia|lia|lia|lia|].
      by replace (2 ^ 0 * D) with D by lia.
    - destruct (shr_1_ok q l N D) as [Hloc1 Hm1]; [lia|done|done|].
      exists (shr_m (shr_1 (shr_record_of_loc q l))),
             (loc_of_shr_record (shr_1 (shr_record_of_loc q l))), 1.
      split_and!; [|lia|lia| | |by replace (2 ^ 1 * D) with (2 * D) by lia].
      + f_equal. by destruct (shr_1 (shr_record_of_loc q l)) as [m [] []].
      + rewrite Hm1. apply Z.div_le_lower_bound; lia.
      + rewrite Hm1. apply Z.div_lt_upper_bound; lia. }
  rewrite shr_m_record_of_loc, loc_of_shr_record_of_loc.
  destruct (round_nearest_even_ok q1 l1 N (2 ^ k1 * D)) as [Hr Hm']; [lia|done|].
  set (m' := round_nearest_even q1 l1) in *.
  rewrite shr_fexp_53_54 by lia.
  destruct (Z.ltb_spec m' (2 ^ 53)) as [Hlt|Hge].
  - rewrite shr_m_record_of_loc. destruct m' as [|pm|pm] eqn:Hpm; [lia| |lia].
    destruct (Z.leb_spec (ez + k1) (emax - prec)) as [_|Hgt];
      [|unfold emax, prec in Hgt; lia].
    exists pm, k1. split_and!; [done|lia|lia|lia|lia|done].
  - assert (Hm53 : m' = 2 ^ 53) by lia.
    rewrite shr_1_div2 by (rewrite shr_m_record_of_loc; lia).
    rewrite shr_m_record_of_loc, Hm53.
    change (2 ^ 53 / 2) with (Z.pos 4503599627370496).
    destruct (Z.leb_spec (ez + k1 + 1) (emax - prec)) as [_|Hgt];
      [|unfold emax, prec in Hgt; lia].
    exists 4503599627370496%positive, (k1 + 1).
    split_and!; [f_equal; lia|lia|lia|done|done|].
    rewrite Hm53 in Hr. rewrite Z.pow_add_r by lia.
    change (Z.pos 4503599627370496) with (2 ^ 52).
    change (2 ^ 53) with (2 * 2 ^ 52) in Hr. change (2 ^ 1) with 2. lia.
Qed.

(** The quotient of two positive integers below [2^53]: a normal number
    [m * 2^(E-105)] within half a unit in the last place of [c / n]. *)
Lemma truediv_bound c n :
  1 ≤ c < 2 ^ 53 → 1 ≤ n < 2 ^ 53 →
  ∃ m E, Prim2SF (PrimFloat.div (Py.float_of_Z c) (Py.float_of_Z n))
         = S754_finite false m (E - 105) ∧
         0 ≤ E ∧ 2 ^ 52 ≤ Z.pos m < 2 ^ 53 ∧
         2 * Z.abs (Z.pos m * 2 ^ E * n - c * 2 ^ 105) ≤ 2 ^ E * n.
Proof.
  intros Hc Hn. rewrite FloatAxioms.div_spec.
  destruct (Prim2SF_float_of_pos_value c) as (m1 & e1 & -> & Hm1 & He1 & Hv1); [lia|].
  destruct (Prim2SF_float_of_pos_value n) as (m2 & e2 & -> & Hm2 & He2 & Hv2); [lia|].
  unfold SF64div, SFdiv, SFdiv_core_binary. simpl Zdigits2.
  pose proof (digits2_pos_bounds m1) as [Hlo1 Hhi1].
  pose proof (digits2_pos_bounds m2) as [Hlo2 Hhi2].
  assert (Hd1 : Z.pos (digits2_pos m1) = 53).
  { destruct (Z.lt_trichotomy (Z.pos (digits2_pos m1)) 53) as [H|[H|H]]; [|done|].
    - assert (2 ^ Z.pos (digits2_pos m1) ≤ 2 ^ 52) by (apply Z.pow_le_mono_r; lia). lia.
    - assert (2 ^ 53 ≤ 2 ^ (Z.pos (digits2_pos m1) - 1)) by (apply Z.pow_le_mono_r; lia). lia. }
  assert (Hd2 : Z.pos (digits2_pos m2) = 53).
  { destruct (Z.lt_trichotomy (Z.pos (digits2_pos m2)) 53) as [H|[H|H]]; [|done|].
    - assert (2 ^ Z.pos (digits2_pos m2) ≤ 2 ^ 52) by (apply Z.pow_le_mono_r; lia). lia.
    - assert (2 ^ 53 ≤ 2 ^ (Z.pos (digits2_pos m2) - 1)) by (apply Z.pow_le_mono_r; lia). lia. }
  rewrite Hd1, Hd2.
  match goal with |- context [Z.min ?a ?b] =>
    assert (He' : Z.min a b = e1 - e2 - 53) by (unfold fexp, emin, prec, emax; lia);
    rewrite He' end.
  replace (e1 - e2 - (e1 - e2 - 53)) with 53 by lia.
  cbv iota. cbn [xorb]. rewrite Z.shiftl_mul_pow2 by lia.
  pose proof (Z_div_mod (Z.pos m1 * 2 ^ 53) (Z.pos m2) ltac:(lia)) as Hdm.
  destruct (Z.div_eucl (Z.pos m1 * 2 ^ 53) (Z.pos m2)) as [q r]. destruct Hdm as [Hqr Hr].
  assert (Hq : 2 ^ 52 ≤ q < 2 ^ 54).
  { change (2 ^ 52) with 4503599627370496 in *. change (2 ^ 53) with 9007199254740992 in *.
    change (2 ^ 54) with 18014398509481984. nia. }
  destruct (binary_round_aux_bound q (e1 - e2 - 53) (new_location (Z.pos m2) r)
              (Z.pos m1 * 2 ^ 53) (Z.pos m2)) as (m & k & -> & Hk & Hm & Hb);
    [done|lia|lia| |].
  { rewrite Hqr, (Z.mul_comm (Z.pos m2) q). apply new_location_ok; lia. }
  exists m, (e1 - e2 + 52 + k). split_and!; [f_equal; lia|lia|lia|lia|].
  set (P := 2 ^ (52 + e1)).
  assert (HP : 0 < P) by (apply Z.pow_pos_nonneg; lia).
  assert (HaP : 2 ^ (- e1) * 2 ^ 53 * P = 2 ^ 105).
  { unfold P. rewrite <-!Z.pow_add_r by lia. f_equal. lia. }
  assert (HbP : 2 ^ k * 2 ^ (- e2) * P = 2 ^ (e1 - e2 + 52 + k)).
  { unfold P. rewrite <-!Z.pow_add_r by lia. f_equal. lia. }
  assert (Hx : (Z.pos m * (2 ^ k * Z.pos m2) - Z.pos m1 * 2 ^ 53) * P
               = Z.pos m * 2 ^ (e1 - e2 + 52 + k) * n - c * 2 ^ 105).
  { rewrite Hv1, Hv2, <-HaP, <-HbP. ring. }
  assert (Hy : 2 ^ k * Z.pos m2 * P = 2 ^ (e1 - e2 + 52 + k) * n).
  { rewrite Hv2, <-HbP. ring. }
  rewrite <-Hx, <-Hy, Z.abs_mul, (Z.abs_eq P) by lia. nia.
Qed.

(** Two normal numbers within half a unit of [c / n] and [T / n], where
    [c < T] and [c ≤ n < 2^53], are in the same strict order. *)
Lemma rounded_quotients_ordered c T n mc Ec mT ET :
  1 ≤ c < T → c ≤ n → 0 < n < 2 ^ 53 →
  0 ≤ Ec → 2 ^ 52 ≤ mc < 2 ^ 53 →
  2 * Z.abs (mc * 2 ^ Ec * n - c * 2 ^ 105) ≤ 2 ^ Ec * n →
  0 ≤ ET → 2 ^ 52 ≤ mT < 2 ^ 53 →
  2 * Z.abs (mT * 2 ^ ET * n - T * 2 ^ 105) ≤ 2 ^ ET * n →
  Ec < ET ∨ (Ec = ET ∧ mc < mT).
Proof.
  intros Hc Hcn Hn HEc Hmc Hbc HET HmT HbT.
  destruct (Z.lt_trichotomy Ec ET) as [Hlt|Hge]; [by left|].
  destruct (decide (Ec = ET ∧ mc < mT)) as [?|Hnot]; [by right|]. exfalso.
  set (Pc := 2 ^ Ec) in *. set (PT := 2 ^ ET) in *.
  assert (HPT : 0 < PT) by (apply Z.pow_pos_nonneg; lia).
  assert (HPc : 0 < Pc) by (apply Z.pow_pos_nonneg; lia).
  change (2 ^ 52) with 4503599627370496 in *.
  change (2 ^ 53) with 9007199254740992 in *.
  change (2 ^ 105) with 40564819207303340847894502572032 in *.
  (* the rounded value for [T] is not above the one for [c] *)
  assert (HF : mT * PT ≤ mc * Pc ∧ PT ≤ Pc).
  { destruct Hge as [Heq|Hgt].
    - assert (PT = Pc) as HP by (unfold PT, Pc; by rewrite Heq).
      rewrite HP. split; [|lia]. apply Z.mul_le_mono_nonneg_r; lia.
    - assert (2 * PT ≤ Pc).
      { unfold PT, Pc. rewrite <-(Z.pow_succ_r 2 ET) by lia. apply Z.pow_le_mono_r; lia. }
      split; [nia|lia]. }
  destruct HF as [HF HP].
  assert (HFn : mT * PT * n ≤ mc * Pc * n) by (apply Z.mul_le_mono_nonneg_r; lia).
  (* hence the gap [1/n] is at most one unit of the larger exponent *)
  assert (HA : 40564819207303340847894502572032 ≤ Pc * n) by nia.
  assert (HEc53 : 53 ≤ Ec).
  { destruct (Z.le_gt_cases 53 Ec) as [|Hsmall]; [done|].
    assert (Pc ≤ 2 ^ 52) by (apply Z.pow_le_mono_r; lia).
    change (2 ^ 52) with 4503599627370496 in *. nia. }
  assert (Hcn' : 2 * mc * Pc ≤ 2 * 40564819207303340847894502572032 + Pc).
  { apply (Z.mul_le_mono_pos_r _ _ n); [lia|]. nia. }
  assert (HEc53' : Ec ≤ 53).
  { destruct (Z.le_gt_cases Ec 53) as [|Hbig]; [done|].
    assert (2 ^ 54 ≤ Pc) by (apply Z.pow_le_mono_r; lia).
    change (2 ^ 54) with 18014398509481984 in *. nia. }
  assert (HPc53 : Pc = 9007199254740992).
  { unfold Pc. by replace Ec with 53 by lia. }
  rewrite HPc53 in *.
  assert (Hmc52 : mc = 4503599627370496) by lia.
  subst mc.
  assert (Hceq : c = n) by nia.
  subst c. nia.
Qed.

(** The binary64 quotients of [c < T] by [n], for a count [c ≤ n], keep the
    strict order: the threshold test of the miner agrees with the comparison
    of the counts. *)
Lemma truediv_lt (c T n : Z) :
  0 ≤ c < T → T < 2 ^ 53 → c ≤ n → 0 < n < 2 ^ 53 →
  PrimFloat.leb (PrimFloat.div (Py.float_of_Z T) (Py.float_of_Z n))
                (PrimFloat.div (Py.float_of_Z c) (Py.float_of_Z n)) = false.
Proof.
  intros Hc HT Hcn Hn. rewrite FloatAxioms.leb_spec.
  destruct (truediv_bound T n) as (mT & ET & -> & HET & HmT & HbT); [lia|lia|].
  destruct (decide (c = 0)) as [->|Hc0].
  - rewrite FloatAxioms.div_spec.
    destruct (Prim2SF_float_of_pos_value n) as (m2 & e2 & -> & _); [lia|].
    done.
  - destruct (truediv_bound c n) as (mc & Ec & -> & HEc & Hmc & Hbc); [lia|lia|].
    destruct (rounded_quotients_ordered c T n (Z.pos mc) Ec (Z.pos mT) ET)
      as [Hlt|[-> Hlt]]; [lia|done..|  |].
    + unfold SFleb, SFcompare.
      destruct (Z.compare_spec (ET - 105) (Ec - 105)); [lia|lia|done].
    + unfold SFleb, SFcompare. rewrite Z.compare_refl.
      change (Pos.compare_cont Eq mT mc) with (Pos.compare mT mc).
      destruct (Pos.compare_spec mT mc); [lia|lia|done].
Qed.

(** And they keep the weak order. *)
Lemma truediv_le (T c n : Z) :
  1 ≤ T ≤ c → c ≤ n → 0 < n < 2 ^ 53 →
  PrimFloat.leb (PrimFloat.div (Py.float_of_Z T) (Py.float_of_Z n))
                (PrimFloat.div (Py.float_of_Z c) (Py.float_of_Z n)) = true.
Proof.
  intros HT Hcn Hn. rewrite FloatAxioms.leb_spec.
  destruct (decide (T = c)) as [->|Hne].
  - destruct (truediv_bound c n) as (mc & Ec & -> & _); [lia|lia|].
    unfold SFleb, SFcompare. rewrite Z.compare_refl.
    change (Pos.compare_cont Eq mc mc) with (Pos.compare mc mc).
    by rewrite Pos.compare_refl.
  - destruct (truediv_bound T n) as (mT & ET & -> & HET & HmT & HbT); [lia|lia|].
    destruct (truediv_bound c n) as (mc & Ec & -> & HEc & Hmc & Hbc); [lia|lia|].
    destruct (rounded_quotients_ordered T c n (Z.pos mT) ET (Z.pos mc) Ec)
      as [Hlt|[-> Hlt]]; [lia|lia|done..| |].
    + unfold SFleb, SFcompare.
      destruct (Z.compare_spec (ET - 105) (Ec - 105)); [lia|done|lia].
    + unfold SFleb, SFcompare. rewrite Z.compare_refl.
      change (Pos.compare_cont Eq mT mc) with (Pos.compare mT mc).
      destruct (Pos.compare_spec mT mc); [done|done|lia].
Qed.

End float_order.

(** ** Stage 1: what it returns *)
Section stage1_results.
Import Pandas Rhapsody Spec.

Lemma truediv_log T (log : list (gset string)) :
  log ≠ [] → Py.truediv T (Z.of_nat (length log)) = Ok (min_support T log).
Proof.
  intros Hne. unfold Py.truediv.
  destruct (decide (Z.of_nat (length log) = 0)) as [H0|_]; [|done].
  destruct log; [done|]. simpl in H0. lia.
Qed.

Lemma occurrences_bounds (log : list (gset string)) (itemset : gset string) :
  0 ≤ occurrences log itemset ≤ Z.of_nat (length log).
Proof. unfold occurrences. pose proof (length_filter (λ t, itemset ⊆ t) log). lia. Qed.

(** The threshold test of the miner, on the binary64 fractions, is the
    comparison of the count with [T] (section 4.2, step 2). *)
Lemma threshold_test_is_count_test T (log : list (gset string)) (itemset : gset string) :
  0 < T < 2 ^ 53 → log ≠ [] → Z.of_nat (length log) < 2 ^ 53 →
  PrimFloat.leb (min_support T log) (support_of log itemset)
  = bool_decide (T ≤ occurrences log itemset).
Proof.
  intros HT Hne Hlen. unfold min_support, support_of.
  pose proof (occurrences_bounds log itemset) as Hocc.
  assert (0 < Z.of_nat (length log)) by (destruct log; [done|]; cbn [length]; lia).
  case_bool_decide as Hle.
  - apply truediv_le; lia.
  - apply truediv_lt; lia.
Qed.

(** An empty log: the division of [T] by its length raises. *)
Lemma stage1_mine_empty_log self df T :
  transactions self = [] → stage1_mine self df T = Raise ZeroDivisionError.
Proof. intros Hlog. unfold stage1_mine. by rewrite Hlog. Qed.

(** A threshold that is not positive: the miner raises. *)
Lemma stage1_mine_rejected self df T :
  transactions self ≠ [] →
  PrimFloat.leb (min_support T (transactions self)) 0 = true →
  stage1_mine self df T = Raise Mlxtend.min_support_error.
Proof.
  intros Hne Hms. unfold stage1_mine. rewrite truediv_log by done.
  cbn [mbind res_bind]. unfold Mlxtend.apriori. by rewrite Hms.
Qed.

(** No atom reaches the threshold: the search ends at level 1 and Stage 1
    returns the empty list and the empty maps. *)
Lemma stage1_mine_nothing_frequent self df T :
  transactions self ≠ [] →
  PrimFloat.leb (min_support T (transactions self)) 0 = false →
  (∀ a, a ∈ ⋃ transactions self →
     PrimFloat.leb (min_support T (transactions self))
                   (support_of (transactions self) {[a]}) = false) →
  stage1_mine self df T = Ok ([], ∅, ∅).
Proof.
  intros Hne Hms Hatoms. unfold stage1_mine. rewrite truediv_log by done.
  cbn [mbind res_bind]. unfold Mlxtend.apriori. rewrite Hms.
  rewrite levels_nothing_frequent; [done|].
  intros c Hc. cbn [Mlxtend.enc_columns] in Hc.
  apply list_elem_of_fmap in Hc as (a & -> & Ha).
  rewrite support_encoded. by apply Hatoms, elem_of_fit.
Qed.

Lemma mapM_nil_inv {A B} (f : A → res B) (l : list A) :
  mapM f l = Ok [] → l = [].
Proof. intros H. apply mapM_Ok_length in H. by destruct l. Qed.

End stage1_results.

Section stage1_claims.
Import Pandas Rhapsody Spec Examples.






End stage1_claims.

(** ** The threshold [K] and failure *)

Section threshold_K.
Import Pandas Rhapsody Spec.

Lemma foldM_preserves {A B} (P : B → Prop) (f : B → A → res B) (l : list A) :
  (∀ b x b', P b → f b x = Ok b' → P b') →
  ∀ acc b, P acc → foldM f acc l = Ok b → P b.
Proof.
  intros Hf. induction l as [|x l IH]; intros acc b Hacc; simpl.
  - by intros [= <-].
  - destruct (f acc x) as [acc'|e] eqn:Hx; simpl; [|done]. apply IH. by eapply Hf.
Qed.

(** Whether [_proves_unreliability] raises does not depend on [K]. *)
Lemma proves_unreliability_raises_alike self r1 r2 T K K' :
  (∃ b, _proves_unreliability self r1 r2 T K = Ok b) →
  ∃ b', _proves_unreliability self r1 r2 T K' = Ok b'.
Proof.
  unfold _proves_unreliability.
  destruct (decide (atoms_of r1 ⊆ atoms_of r2)); [|by eexists].
  destruct (getitem (nUP self) r2) as [n2|e]; simpl; [|by intros [? ?]].
  destruct (n2 <? T); [by eexists|].
  destruct (getitem (nUP self) r1) as [n1|e]; simpl; [|by intros [? ?]].
  destruct (Py.truediv n2 (n1 + n2)) as [c|e]; simpl; [by eexists|by intros [? ?]].
Qed.

Lemma stage2_raises_alike self T K K' :
  (∃ rel, _stage2 self T K = Ok rel) → ∃ rel', _stage2 self T K' = Ok rel'.
Proof.
  rewrite !stage2_unfold. intros [rel Hrel].
  destruct (mark_loop _ _ _ ∅) as [unrel|e] eqn:Hloop; simpl in Hrel; [|done].
  apply mark_loop_inv in Hloop as [Hdec _].
  destruct (mark_loop_total (λ r1 r2, _proves_unreliability self r1 r2 T K')
              (freq_rules self) (freq_rules self) ∅) as [unrel' ->].
  { intros r1 r2 H1 H2 Hne. eapply proves_unreliability_raises_alike, Hdec; done. }
  simpl. by eexists.
Qed.

Lemma stage2_sublist self T K rel :
  _stage2 self T K = Ok rel → rel ⊆ freq_rules self.
Proof.
  rewrite stage2_unfold. destruct (mark_loop _ _ _ ∅) as [unrel|e]; simpl; [|done].
  intros [= <-] r Hr. by apply list_elem_of_filter in Hr as [_ ?].
Qed.

(** Every rule Stage 1 returns has an entry in both maps. *)
Lemma stage1_mine_maps self df T fr up a :
  stage1_mine self df T = Ok (fr, up, a) →
  ∀ r, r ∈ fr → is_Some (up !! r) ∧ is_Some (a !! r).
Proof.
  unfold stage1_mine.
  destruct (Py.truediv _ _) as [ms|e]; simpl; [|done].
  destruct (Mlxtend.apriori _ _) as [fi|e]; simpl; [|done].
  destruct fi as [|i0 fi'].
  { intros [= <- <- <-] r Hr. by apply elem_of_nil in Hr. }
  match goal with |- context [foldM ?f ([], ∅) ?l] =>
    destruct (foldM f ([], ∅) l) as [[fr' up']|e] eqn:Hrules end; simpl; [|done].
  match goal with |- context [foldM ?f ?acc (rows df)] =>
    destruct (foldM f acc (rows df)) as [a'|e] eqn:HnA end; simpl; [|done].
  intros [= <- <- <-] r Hr. split.
  - revert Hrules r Hr.
    match goal with |- foldM ?f _ ?l = _ → _ =>
      apply (foldM_preserves
               (λ acc : list string * gmap string Z, ∀ r, r ∈ acc.1 → is_Some (acc.2 !! r)) f l)
    end.
    + intros [fr0 up0] [s c] [fr1 up1] Hinv. simpl.
      destruct (Py.int _) as [v|e]; simpl; [|done]. intros [= <- <-] r Hr.
      apply elem_of_app in Hr as [Hr|Hr].
      * destruct (decide (Py.join sep (Py.sorted_str (elements c)) = r)) as [<-|Hne].
        -- rewrite lookup_insert_eq. by eexists.
        -- rewrite lookup_insert_ne by done. by apply Hinv.
      * apply list_elem_of_singleton in Hr as ->. rewrite lookup_insert_eq. by eexists.
    + intros r Hr. by apply elem_of_nil in Hr.
  - assert (Hinit : is_Some (foldl (λ (nA : gmap string Z) rule, <[rule:=0]> nA) ∅ fr' !! r)).
    { clear -Hr. generalize (∅ : gmap string Z). induction fr' as [|x fr' IH]; intros m.
      - by apply elem_of_nil in Hr.
      - simpl. apply elem_of_cons in Hr as [->|Hr]; [|by apply IH].
        clear IH. assert (Hx : is_Some (<[x:=0]> m !! x)) by (rewrite lookup_insert_eq; by eexists).
        revert Hx. generalize (<[x:=0]> m). induction fr' as [|y fr' IH]; intros m' Hm'; [done|].
        simpl. apply IH. destruct (decide (y = x)) as [->|Hne].
        + rewrite lookup_insert_eq. by eexists.
        + by rewrite lookup_insert_ne. }
    eapply (foldM_preserves (λ nA : gmap string Z, is_Some (nA !! r)));
      [|exact Hinit|exact HnA].
    intros nA0 row nA1 Hinv. simpl.
    destruct (request_atoms _ _) as [req|e]; simpl; [|done].
    match goal with |- foldM ?g _ ?l = _ → _ =>
      apply (foldM_preserves (λ nA : gmap string Z, is_Some (nA !! r)) g l)
    end; [|done].
    intros nA2 rule nA3 Hinv2. simpl.
    destruct (decide (atoms_of rule ⊆ req)); [|by intros [= <-]].
    destruct (getitem nA2 rule) as [v|e]; simpl; [|done]. intros [= <-].
    destruct (decide (rule = r)) as [->|Hne].
    + rewrite lookup_insert_eq. by eexists.
    + by rewrite lookup_insert_ne.
Qed.

Lemma stage1_maps self T self1 fr up a :
  _stage1 self T = (self1, Ok (fr, up, a)) →
  ∀ r, r ∈ fr → is_Some (up !! r) ∧ is_Some (a !! r).
Proof.
  unfold _stage1. destruct (data self) as [df|]; [|done].
  destruct (mapM _ _) as [log|e]; [|done].
  intros [= _ Hmine]. by eapply stage1_mine_maps.
Qed.

(** Whether [run_algorithm] raises does not depend on [K]. *)
Lemma run_algorithm_raises_alike self T K K' :
  (∃ out, (run_algorithm self T K).2 = Ok out) →
  ∃ out', (run_algorithm self T K').2 = Ok out'.
Proof.
  unfold run_algorithm. destruct (data self) as [df|]; [|by intros [? ?]].
  destruct (_stage1 self T) as [self1 [[[fr up] a]|e]] eqn:H1; [|by intros [? ?]].
  pose proof (stage1_maps _ _ _ _ _ _ H1) as Hmaps.
  destruct (_stage2 (set_stage1 self1 fr up a) T K) as [rr|e] eqn:H2; [|by intros [? ?]].
  intros _.
  destruct (stage2_raises_alike (set_stage1 self1 fr up a) T K K') as [rr' H2'];
    [by eexists|].
  rewrite H2'.
  destruct (stage3_marks (set_rel_rules (set_stage1 self1 fr up a) rr')) as (sub & -> & _).
  { intros r Hr. apply Hmaps. by apply (stage2_sublist _ _ _ _ H2'). }
  by eexists.
Qed.

End threshold_K.

Section run_algorithm_claims.
Import Pandas Rhapsody Spec Examples.




End run_algorithm_claims.

(** ** Strings: splitting, joining and trimming *)
Section string_facts.

Lemma contains_tail sub c s : Py.contains sub (String c s) = false → Py.contains sub s = false.
Proof. cbn [Py.contains]. by intros [_ ?]%orb_false_iff. Qed.

Lemma contains_head sub s : Py.contains sub s = false → String.prefix sub s = false.
Proof. destruct s; cbn [Py.contains]; intros [H _]%orb_false_iff; exact H. Qed.

Lemma prefix_app s t : String.prefix s (s +:+ t) = true.
Proof.
  induction s as [|c s IH]; simpl; [by destruct t|]. by destruct (ascii_dec c c).
Qed.

Lemma append_cons c s t : String c s +:+ t = String c (s +:+ t).
Proof. reflexivity. Qed.

Lemma append_nil t : "" +:+ t = t.
Proof. reflexivity. Qed.

Lemma prefix_nil s : String.prefix "" s = true.
Proof. by destruct s. Qed.

Lemma prefix_cons a s1 b s2 :
  String.prefix (String a s1) (String b s2) = bool_decide (a = b) && String.prefix s1 s2.
Proof. simpl. destruct (ascii_dec a b); by case_bool_decide. Qed.

(** One character of a comparison with the separator. *)
Ltac prefix_step x c :=
  destruct x as [|c x]; rewrite ?append_nil, ?append_cons;
  rewrite prefix_cons;
  [by rewrite bool_decide_eq_false_2 by done
  |case_bool_decide; [subst c; cbn [andb]|done]].

(** No occurrence of the separator starts inside a piece that is free of
    the conjunction sign, even when the separator follows the piece. *)
Lemma prefix_sep_piece x rest :
  Py.contains "∧" x = false → x ≠ "" →
  String.prefix Rhapsody.sep (x +:+ Rhapsody.sep +:+ rest) = false.
Proof.
  intros Hx Hne. unfold Rhapsody.sep.
  destruct x as [|c0 x]; [done|]. rewrite append_cons.
  rewrite prefix_cons. case_bool_decide; [subst c0; cbn [andb]|done].
  prefix_step x c1. prefix_step x c2. prefix_step x c3.
  apply contains_tail, contains_head in Hx.
  by rewrite !prefix_cons, !bool_decide_eq_true_2, prefix_nil in Hx.
Qed.

Lemma prefix_sep_last x :
  Py.contains "∧" x = false → String.prefix Rhapsody.sep x = false.
Proof.
  intros Hx. unfold Rhapsody.sep.
  destruct x as [|c0 x]; [done|].
  rewrite prefix_cons. case_bool_decide; [subst c0; cbn [andb]|done].
  destruct x as [|c1 x]; [done|].
  rewrite prefix_cons. case_bool_decide; [subst c1; cbn [andb]|done].
  destruct x as [|c2 x]; [done|].
  rewrite prefix_cons. case_bool_decide; [subst c2; cbn [andb]|done].
  destruct x as [|c3 x]; [done|].
  rewrite prefix_cons. case_bool_decide; [subst c3; cbn [andb]|done].
  apply contains_tail, contains_head in Hx.
  by rewrite !prefix_cons, !bool_decide_eq_true_2, prefix_nil in Hx.
Qed.

Lemma split_piece x rest :
  Py.contains "∧" x = false →
  Py.split Rhapsody.sep (x +:+ Rhapsody.sep +:+ rest) = x :: Py.split Rhapsody.sep rest.
Proof.
  unfold Py.split. induction x as [|c x IH]; intros Hx.
  - rewrite append_nil. unfold Rhapsody.sep at 2. rewrite !append_cons, append_nil.
    cbn [Py.split_go]. rewrite <-(append_nil rest) at 1.
    rewrite <-!append_cons, prefix_app. by destruct rest.
  - rewrite append_cons. cbn [Py.split_go]. rewrite <-append_cons.
    rewrite prefix_sep_piece by done.
    by rewrite IH by (by eapply contains_tail).
Qed.

Lemma split_last x :
  Py.contains "∧" x = false → Py.split Rhapsody.sep x = [x].
Proof.
  unfold Py.split. induction x as [|c x IH]; intros Hx; [done|].
  cbn [Py.split_go]. rewrite prefix_sep_last by done.
  by rewrite IH by (by eapply contains_tail).
Qed.

(** [" ∧ ".join(l).split(" ∧ ")] gives [l] back when [l] is not empty and
    no piece holds the conjunction sign. *)
Lemma split_join l :
  l ≠ [] → Forall (λ x, Py.contains "∧" x = false) l →
  Py.split Rhapsody.sep (Py.join Rhapsody.sep l) = l.
Proof.
  intros Hne Hl. induction Hl as [|x l Hx Hl IH]; [done|].
  destruct l as [|y l].
  - by apply split_last.
  - change (Py.join Rhapsody.sep (x :: y :: l))
      with (x +:+ Rhapsody.sep +:+ Py.join Rhapsody.sep (y :: l)).
    rewrite split_piece by done. by rewrite IH.
Qed.

Lemma substring_all s m : (String.length s ≤ m)%nat → String.substring 0 m s = s.
Proof.
  revert m. induction s as [|c s IH]; intros m Hm; simpl.
  - by destruct m.
  - destruct m as [|m]; simpl in *; [lia|]. rewrite IH; [done|lia].
Qed.

(** [(col + "=" + v).split("=", 1)] is [[col, v]] when [col] has no equals
    sign. *)
Lemma split1_atom col v :
  Py.contains "=" col = false →
  Py.split1 "=" (col +:+ "=" +:+ v) = [col; v] ∧ Py.contains "=" (col +:+ "=" +:+ v) = true.
Proof.
  induction col as [|c col IH]; intros Hc.
  - rewrite append_nil, append_cons. cbn [Py.split1 Py.contains].
    rewrite prefix_cons, bool_decide_eq_true_2, prefix_nil by done.
    split; [|done]. cbn [String.length andb String.substring]. by rewrite substring_all by lia.
  - pose proof (contains_head _ _ Hc) as Hne.
    rewrite prefix_cons, prefix_nil, andb_true_r in Hne. apply bool_decide_eq_false in Hne.
    destruct (IH (contains_tail _ _ _ Hc)) as [IH1 IH2].
    rewrite append_cons. cbn [Py.split1 Py.contains].
    rewrite prefix_cons, (bool_decide_eq_false_2 _ Hne), IH1, IH2. split; [done|].
    apply orb_true_r.
Qed.

Lemma lstrip_head s :
  Py.lstrip s = "" ∨ ∃ c t, Py.lstrip s = String c t ∧ Py.isspace c = false.
Proof.
  induction s as [|c s IH]; simpl; [by left|].
  destruct (Py.isspace c) eqn:Hc; [done|]. right. by exists c, s.
Qed.

Lemma rstrip_head c t :
  Py.isspace c = false → ∃ t', Py.rstrip (String c t) = String c t'.
Proof.
  intros Hc. simpl. destruct (Py.rstrip t); [|by eexists]. rewrite Hc. by eexists.
Qed.

Lemma rstrip_idemp s : Py.rstrip (Py.rstrip s) = Py.rstrip s.
Proof.
  induction s as [|c s IH]; simpl; [done|].
  destruct (Py.rstrip s) as [|c' t] eqn:Hs.
  - destruct (Py.isspace c) eqn:Hc; [done|]. simpl. by rewrite Hc.
  - simpl in *. by rewrite IH.
Qed.

(** [strip] is idempotent. *)
Lemma strip_idemp s : Py.strip (Py.strip s) = Py.strip s.
Proof.
  unfold Py.strip.
  destruct (lstrip_head s) as [->|(c & t & -> & Hc)]; [done|].
  destruct (rstrip_head c t Hc) as [t' Ht']. rewrite Ht'. simpl Py.lstrip. rewrite Hc.
  by rewrite <-Ht', rstrip_idemp.
Qed.

End string_facts.

(** ** The evaluator: decisions *)
Section evaluator_facts.
Import Evaluator.

Lemma existsb_false {A} (f : A → bool) l : (∀ x, x ∈ l → f x = false) → existsb f l = false.
Proof.
  induction l as [|x l IH]; intros H; simpl; [done|].
  rewrite H by left. simpl. apply IH. intros y Hy. apply H. by right.
Qed.

Lemma existsb_true {A} (f : A → bool) l x : x ∈ l → f x = true → existsb f l = true.
Proof.
  intros Hx Hf. apply existsb_exists. exists x. split; [|done]. by apply list_elem_of_In.
Qed.

(** X1. A fresh evaluator: no attribute is available, so nothing is granted. *)
Theorem evaluate_single_request_never_grants rules request :
  granted (evaluate_single_request rules request) = false ∧
  matching_rule (evaluate_single_request rules request) = None.
Proof.
  unfold evaluate_single_request, evaluate_request. simpl.
  destruct rules as [|r rs]; [done|].
  rewrite existsb_false; [done|].
  intros [k v] _. simpl. rewrite bool_decide_eq_false_2; [done|]. set_solver.
Qed.

Lemma find_first {A} (f : A → bool) l x :
  List.find f l = Some x →
  ∃ l1 l2, l = l1 ++ x :: l2 ∧ f x = true ∧ Forall (λ y, f y = false) l1.
Proof.
  induction l as [|y l IH]; simpl; [done|].
  destruct (f y) eqn:Hy.
  - intros [= ->]. by exists [], l.
  - intros (l1 & l2 & -> & Hx & Hl1)%IH. exists (y :: l1), l2. split_and!; [done|done|].
    by constructor.
Qed.

Lemma find_is_None {A} (f : A → bool) l :
  List.find f l = None → ∀ x, x ∈ l → f x = false.
Proof.
  intros H x Hx. eapply find_none; [done|]. by apply list_elem_of_In.
Qed.

Lemma strip_empty : Py.strip "" = "".
Proof. reflexivity. Qed.

Lemma elem_of_available acc (rs : list string) attr :
  attr ∈ foldl (λ (acc : gset string) rule, acc ∪ list_to_set (fst <$> parse_rule rule)) acc rs
  ↔ attr ∈ acc ∨ ∃ r, r ∈ rs ∧ attr ∈ fst <$> parse_rule r.
Proof.
  revert acc. induction rs as [|r rs IH]; intros acc; simpl.
  - split; [by left|]. intros [?|(r & Hr & _)]; [done|]. by apply elem_of_nil in Hr.
  - rewrite IH, elem_of_union, elem_of_list_to_set. split.
    + intros [[?|?]|(r' & Hr' & ?)]; [by left|right; exists r|right; exists r'].
      * split; [left|done].
      * split; [by right|done].
    + intros [?|(r' & Hr' & ?)]; [by left; left|].
      apply elem_of_cons in Hr' as [->|Hr']; [by left; right|]. right. by exists r'.
Qed.

(** What a match gives: an attribute of the rule that the request fills in
    with the rule's value. *)
Lemma rule_matches_request_inv rule request :
  rule_matches_request rule request = true →
  (∀ kv, kv ∈ parse_rule rule →
     request_value request kv.1 = "" ∨ request_value request kv.1 = kv.2) ∧
  ∃ kv, kv ∈ parse_rule rule ∧
        request_value request kv.1 ≠ "" ∧ request_value request kv.1 = kv.2.
Proof.
  unfold rule_matches_request.
  destruct (forallb _ _) eqn:Hall; [|done].
  intros Hlen%bool_decide_eq_true. split.
  - intros kv Hkv. rewrite forallb_forall in Hall.
    specialize (Hall kv (proj1 (list_elem_of_In _ _) Hkv)). simpl in Hall.
    destruct (decide (request_value request kv.1 = "")); [by left|].
    right. by apply bool_decide_eq_true in Hall.
  - destruct (filter _ _) as [|kv l] eqn:Hf; [simpl in Hlen; lia|].
    exists kv.
    assert (kv ∈ filter (λ kv : string * string,
              request_value request kv.1 ≠ "" ∧ request_value request kv.1 = kv.2)
              (parse_rule rule)) as Hin by (rewrite Hf; left).
    apply list_elem_of_filter in Hin as [[? ?] ?]. by split_and!.
Qed.

Lemma rule_matches_request_intro rule request :
  (∀ kv, kv ∈ parse_rule rule →
     request_value request kv.1 = "" ∨ request_value request kv.1 = kv.2) →
  (∃ kv, kv ∈ parse_rule rule ∧
         request_value request kv.1 ≠ "" ∧ request_value request kv.1 = kv.2) →
  rule_matches_request rule request = true.
Proof.
  intros Hall (kv & Hkv & Hne & Heq). unfold rule_matches_request.
  rewrite (proj2 (forallb_forall _ _)).
  - apply bool_decide_eq_true.
    assert (kv ∈ filter (λ kv : string * string,
              request_value request kv.1 ≠ "" ∧ request_value request kv.1 = kv.2)
              (parse_rule rule)) as Hin by (by apply list_elem_of_filter).
    destruct (filter _ _); [by apply elem_of_nil in Hin|]. simpl. lia.
  - intros kv' Hkv'%list_elem_of_In. simpl.
    destruct (decide _) as [|Hne']; [done|]. apply bool_decide_eq_true.
    by destruct (Hall kv' Hkv').
Qed.

(** X2. After [load_rules], the attribute check never stands in the way: a
    request is granted exactly when one of the rules matches it. *)
Theorem load_rules_grants_iff_some_rule_matches self rs request :
  granted (evaluate_request (load_rules self rs) request) = true
  ↔ ∃ r, r ∈ rs ∧ rule_matches_request r request = true.
Proof.
  unfold evaluate_request. cbn [rules load_rules available_attributes].
  split.
  - destruct rs as [|r0 rs]; [done|].
    destruct (negb _); [done|].
    destruct (List.find _ _) as [r|] eqn:Hfind; [|done].
    intros _. apply find_first in Hfind as (l1 & l2 & Heq & Hr & _).
    exists r. split; [|done]. rewrite Heq. apply elem_of_app. right. left.
  - intros (r & Hr & Hm).
    destruct (rule_matches_request_inv _ _ Hm) as (_ & [attr v] & Hkv & Hne & Heq).
    simpl in Hne, Heq.
    unfold request_value in Hne.
    destruct (request !! attr) as [x|] eqn:Hx; simpl in Hne; [|by destruct Hne].
    rewrite (existsb_true _ _ (attr, x)); simpl.
    + destruct (List.find _ _) as [r'|] eqn:Hfind.
      * by destruct rs.
      * pose proof (find_is_None _ _ Hfind r Hr) as Hn. simpl in Hn. congruence.
    + by apply elem_of_map_to_list.
    + rewrite bool_decide_eq_true_2, bool_decide_eq_false_2; [done|done|].
      apply elem_of_available. right. exists r. split; [done|].
      apply list_elem_of_fmap. by exists (attr, v).
Qed.

(** X3. The decision of [evaluate_request]: a grant names the first rule, in
    list order, that matches the request. *)
Theorem evaluate_request_first_match self request r :
  matching_rule (evaluate_request self request) = Some r →
  granted (evaluate_request self request) = true ∧
  ∃ l1 l2, rules self = l1 ++ r :: l2 ∧
           rule_matches_request r request = true ∧
           Forall (λ r', rule_matches_request r' request = false) l1.
Proof.
  unfold evaluate_request.
  destruct (rules self) as [|r0 rs] eqn:Hrules; [done|].
  destruct (negb _); [done|].
  destruct (List.find _ _) as [r'|] eqn:Hfind; [|done].
  simpl. intros [= ->]. split; [done|].
  by apply (find_first (λ rule, rule_matches_request rule request)).
Qed.

Lemma evaluate_request_first_match_example :
  granted (evaluate_request (load_rules (__init__ []) ["b=2"; "a=1 ∧ b=2"; "a=1"])
             {[ "a" := "1" ]}) = true ∧
  ∃ l1 l2, ["b=2"; "a=1 ∧ b=2"; "a=1"] = l1 ++ "a=1 ∧ b=2" :: l2 ∧
           rule_matches_request "a=1 ∧ b=2" {[ "a" := "1" ]} = true ∧
           Forall (λ r', rule_matches_request r' {[ "a" := "1" ]} = false) l1.
Proof.
  apply (evaluate_request_first_match
           (load_rules (__init__ []) ["b=2"; "a=1 ∧ b=2"; "a=1"]) {[ "a" := "1" ]}).
  reflexivity.
Defined.

End evaluator_facts.

(** ** The evaluator: the dictionary of a rule *)
Section dict_facts.
Import Evaluator.

Lemma dict_set_keys d k v :
  fst <$> dict_set d k v = if decide (k ∈ fst <$> d) then fst <$> d else (fst <$> d) ++ [k].
Proof.
  induction d as [|[k' v'] d IH].
  - rewrite decide_False; [done|]. apply not_elem_of_nil.
  - cbn [dict_set]. destruct (decide (k' = k)) as [->|Hne].
    + rewrite decide_True; [done|]. rewrite fmap_cons. left.
    + rewrite !fmap_cons, IH. cbn [fst].
      destruct (decide (k ∈ fst <$> d)) as [Hin|Hnin].
      * rewrite decide_True; [done|]. by right.
      * rewrite decide_False; [done|]. intros [?|?]%elem_of_cons; [congruence|done].
Qed.

Lemma dict_set_NoDup d k v : NoDup (fst <$> d) → NoDup (fst <$> dict_set d k v).
Proof.
  intros Hd. rewrite dict_set_keys. destruct (decide _); [done|].
  apply NoDup_app. split_and!; [done| |apply NoDup_singleton].
  intros x Hx ->%list_elem_of_singleton. done.
Qed.

Lemma dict_set_fresh d k v : k ∉ fst <$> d → dict_set d k v = d ++ [(k, v)].
Proof.
  induction d as [|[k' v'] d IH]; simpl; [done|].
  intros Hk. apply not_elem_of_cons in Hk as [Hne Hk].
  rewrite decide_False by done. by rewrite IH.
Qed.

Lemma dict_get_set d k v k' :
  dict_get (dict_set d k v) k' = if decide (k = k') then Some v else dict_get d k'.
Proof.
  induction d as [|[k0 v0] d IH]; simpl.
  - by destruct (decide (k = k')).
  - destruct (decide (k0 = k)) as [->|Hne]; simpl.
    + by destruct (decide (k = k')).
    + rewrite IH. destruct (decide (k0 = k')) as [->|]; [|done].
      by rewrite decide_False by done.
Qed.

Lemma dict_get_elem d k v : dict_get d k = Some v → (k, v) ∈ d.
Proof.
  induction d as [|[k' v'] d IH]; simpl; [done|].
  destruct (decide (k' = k)) as [->|]; [intros [= ->]; left|]. intros ?. right. auto.
Qed.

Lemma elem_dict_get d k v : NoDup (fst <$> d) → (k, v) ∈ d → dict_get d k = Some v.
Proof.
  induction d as [|[k' v'] d IH]; simpl; [by intros _ ?%elem_of_nil|].
  intros [Hk' Hd]%NoDup_cons [[= -> ->]|Hin]%elem_of_cons.
  - by rewrite decide_True.
  - rewrite decide_False; [by apply IH|]. intros ->. apply Hk'.
    apply list_elem_of_fmap. by exists (k, v).
Qed.

Lemma dict_get_is_Some d k : is_Some (dict_get d k) ↔ k ∈ fst <$> d.
Proof.
  induction d as [|[k' v'] d IH]; simpl.
  - split; [by intros [? ?]|by intros ?%elem_of_nil].
  - destruct (decide (k' = k)) as [->|Hne].
    + split; [intros _; left|by eexists].
    + rewrite IH. split; [by right|]. by intros [?|?]%elem_of_cons.
Qed.

Lemma parse_rule_unfold rule : parse_rule rule = foldl parse_step [] (Py.split " ∧ " rule).
Proof. reflexivity. Qed.

Lemma parse_step_NoDup d atom : NoDup (fst <$> d) → NoDup (fst <$> parse_step d atom).
Proof.
  intros Hd. unfold parse_step. destruct (Py.contains "=" atom); [|done].
  destruct (Py.split1 "=" atom) as [|attr [|value [|? ?]]]; try done.
  by apply dict_set_NoDup.
Qed.

(** The dictionary of a rule has every attribute once. *)
Lemma parse_rule_NoDup rule : NoDup (fst <$> parse_rule rule).
Proof.
  rewrite parse_rule_unfold.
  assert (∀ l d, NoDup (fst <$> d) → NoDup (fst <$> foldl parse_step d l)) as H.
  { induction l as [|x l IH]; intros d Hd; simpl; [done|]. by apply IH, parse_step_NoDup. }
  apply H. constructor.
Qed.

End dict_facts.

Section parse_facts.
Import Evaluator.

Lemma parse_step_atom d k v :
  Py.contains "=" k = false →
  parse_step d (k +:+ "=" +:+ v) = dict_set d (Py.strip k) (Py.strip v).
Proof.
  intros Hk. unfold parse_step. destruct (split1_atom k v Hk) as [-> ->]. done.
Qed.

Lemma foldl_parse_step d (kvs : list (string * string)) :
  Forall (λ kv, Py.contains "=" kv.1 = false) kvs →
  NoDup ((fst <$> d) ++ ((λ kv, Py.strip kv.1) <$> kvs)) →
  foldl parse_step d ((λ kv, kv.1 +:+ "=" +:+ kv.2) <$> kvs)
  = d ++ ((λ kv, (Py.strip kv.1, Py.strip kv.2)) <$> kvs).
Proof.
  intros Hk. revert d. induction Hk as [|[k v] kvs Hk Hkvs IH]; intros d Hd.
  - simpl. by rewrite app_nil_r.
  - rewrite !fmap_cons in *. cbn [foldl fst snd] in *.
    rewrite parse_step_atom by done.
    apply NoDup_app in Hd as (Hd1 & Hd2 & Hd3). apply NoDup_cons in Hd3 as [Hd3 Hd4].
    rewrite dict_set_fresh.
    + rewrite IH; [by rewrite <-app_assoc|].
      rewrite fmap_app. cbn [fmap list_fmap fst]. rewrite <-app_assoc. cbn [app].
      apply NoDup_app. split_and!; [done| |by constructor].
      intros x Hx. apply Hd2 in Hx. done.
    + intros Hin. apply (Hd2 _ Hin). left.
Qed.



End parse_facts.

(** ** The evaluator: what a decision depends on *)
Section request_facts.
Import Evaluator.

Lemma forallb_ext_in {A} (f g : A → bool) l :
  (∀ x, x ∈ l → f x = g x) → forallb f l = forallb g l.
Proof.
  induction l as [|x l IH]; intros H; simpl; [done|].
  rewrite H by left. rewrite IH; [done|]. intros y Hy. apply H. by right.
Qed.

Lemma existsb_iff {A} (f : A → bool) l : existsb f l = true ↔ ∃ x, x ∈ l ∧ f x = true.
Proof.
  rewrite existsb_exists. split; intros (x & Hx & Hf); exists x; split; try done;
    by apply list_elem_of_In.
Qed.

Lemma existsb_eq {A B} (f : A → bool) (g : B → bool) l l' :
  ((∃ x, x ∈ l ∧ f x = true) ↔ (∃ y, y ∈ l' ∧ g y = true)) → existsb f l = existsb g l'.
Proof.
  intros H. destruct (existsb f l) eqn:Hf, (existsb g l') eqn:Hg; try done.
  - apply existsb_iff, H, existsb_iff in Hf. congruence.
  - apply existsb_iff, H, existsb_iff in Hg. congruence.
Qed.

(** A match depends on the request through [request_value] alone. *)
Lemma rule_matches_request_ext rule request request' :
  (∀ attr, request_value request attr = request_value request' attr) →
  rule_matches_request rule request = rule_matches_request rule request'.
Proof.
  intros H. unfold rule_matches_request.
  rewrite (forallb_ext_in _ (λ kv : string * string,
             let rv := request_value request' kv.1 in
             if decide (rv = "") then true else bool_decide (rv = kv.2))).
  - destruct (forallb _ _); [|done].
    rewrite (filter_ext_in _ (λ kv : string * string,
               request_value request' kv.1 ≠ "" ∧ request_value request' kv.1 = kv.2));
      [done|].
    intros kv _. by rewrite H.
  - intros kv _. simpl. by rewrite H.
Qed.

Lemma request_value_blank request k v attr :
  Py.strip v = "" →
  request_value (<[k := v]> request) attr = request_value (delete k request) attr.
Proof.
  intros Hv. unfold request_value. destruct (decide (k = attr)) as [->|Hne].
  - by rewrite lookup_insert_eq, lookup_delete_eq.
  - by rewrite lookup_insert_ne, lookup_delete_ne.
Qed.

Lemma request_value_strip request attr :
  request_value (Py.strip <$> request) attr = request_value request attr.
Proof.
  unfold request_value. rewrite lookup_fmap.
  destruct (request !! attr); simpl; [|done]. apply strip_idemp.
Qed.

Lemma find_ext {A} (f g : A → bool) l : (∀ x, f x = g x) → List.find f l = List.find g l.
Proof. intros H. induction l as [|x l IH]; simpl; [done|]. by rewrite H, IH. Qed.

Lemma evaluate_request_ext self request request' :
  (∀ attr, request_value request attr = request_value request' attr) →
  existsb (λ kv : string * string,
             bool_decide (kv.1 ∈ available_attributes self)
             && negb (bool_decide (Py.strip kv.2 = ""))) (map_to_list request)
  = existsb (λ kv : string * string,
             bool_decide (kv.1 ∈ available_attributes self)
             && negb (bool_decide (Py.strip kv.2 = ""))) (map_to_list request') →
  verdict (evaluate_request self request) = verdict (evaluate_request self request').
Proof.
  intros Hv Hex. unfold evaluate_request. destruct (rules self) as [|r rs]; [done|].
  rewrite Hex. destruct (negb _); [done|].
  rewrite (find_ext (λ rule, rule_matches_request rule request)
                    (λ rule, rule_matches_request rule request'))
    by (intros rule; by apply rule_matches_request_ext).
  by destruct (List.find _ _).
Qed.




End request_facts.

(** ** The evaluator: conflicting rules *)
Section conflict_facts.
Import Evaluator.

Lemma has_conflict_true r1 r2 :
  has_conflict r1 r2 = true ↔
  ∃ attr v1 v2, dict_get (parse_rule r1) attr = Some v1 ∧
                dict_get (parse_rule r2) attr = Some v2 ∧ v1 ≠ v2.
Proof.
  unfold has_conflict. split.
  - destruct (decide _) as [|Hne]; [done|].
    intros (attr & Hin & Hd%bool_decide_eq_true)%existsb_iff.
    apply elem_of_elements, elem_of_intersection in Hin as [H1 H2].
    apply elem_of_list_to_set, dict_get_is_Some in H1 as [v1 H1].
    apply elem_of_list_to_set, dict_get_is_Some in H2 as [v2 H2].
    exists attr, v1, v2. split_and!; [done|done|]. congruence.
  - intros (attr & v1 & v2 & H1 & H2 & Hne).
    assert (attr ∈ (list_to_set (fst <$> parse_rule r1) : gset string)
                   ∩ list_to_set (fst <$> parse_rule r2)) as Hin.
    { apply elem_of_intersection.
      split; apply elem_of_list_to_set, dict_get_is_Some; by eexists. }
    rewrite decide_False by (intros Hempty; rewrite Hempty in Hin; by apply elem_of_empty in Hin).
    apply existsb_iff. exists attr. split; [by apply elem_of_elements|].
    apply bool_decide_eq_true. congruence.
Qed.

Lemma elem_of_conflicting_pairs l r1 r2 :
  (r1, r2) ∈ conflicting_pairs l ↔
  ∃ i j, (i < j)%nat ∧ l !! i = Some r1 ∧ l !! j = Some r2 ∧ has_conflict r1 r2 = true.
Proof.
  induction l as [|r l IH]; simpl.
  - split; [by intros ?%elem_of_nil|]. by intros (i & j & _ & ? & _).
  - rewrite elem_of_app, list_elem_of_fmap, IH. split.
    + intros [(r2' & [= -> ->] & [Hc Hin]%list_elem_of_filter)|(i & j & Hij & Hi & Hj & Hc)].
      * apply list_elem_of_lookup in Hin as [j Hj]. exists O, (S j). split_and!; [lia|done..].
      * exists (S i), (S j). split_and!; [lia|done..].
    + intros (i & j & Hij & Hi & Hj & Hc). destruct j as [|j]; [lia|]. simpl in Hj.
      destruct i as [|i]; simpl in Hi.
      * injection Hi as ->. left. exists r2. split; [done|].
        apply list_elem_of_filter. split; [done|]. by eapply list_elem_of_lookup_2.
      * right. exists i, j. split_and!; [lia|done..].
Qed.

(** X7. [find_conflicting_rules] reports a pair of rules exactly when the
    first stands before the second in the list and the two give different
    values to an attribute they share. *)
Theorem find_conflicting_rules_spec self r1 r2 :
  (r1, r2) ∈ find_conflicting_rules self ↔
  ∃ i j, (i < j)%nat ∧ rules self !! i = Some r1 ∧ rules self !! j = Some r2 ∧
    ∃ attr v1 v2, dict_get (parse_rule r1) attr = Some v1 ∧
                  dict_get (parse_rule r2) attr = Some v2 ∧ v1 ≠ v2.
Proof.
  unfold find_conflicting_rules. rewrite elem_of_conflicting_pairs.
  by setoid_rewrite has_conflict_true.
Qed.

(** X8. Two rules reported as conflicting never both match a request that
    fills in every attribute the two share. *)
Theorem conflicting_rules_do_not_both_match self request r1 r2 :
  (r1, r2) ∈ find_conflicting_rules self →
  (∀ attr, attr ∈ fst <$> parse_rule r1 → attr ∈ fst <$> parse_rule r2 →
           request_value request attr ≠ "") →
  ¬ (rule_matches_request r1 request = true ∧ rule_matches_request r2 request = true).
Proof.
  intros (i & j & _ & _ & _ & Hc)%elem_of_conflicting_pairs Hfilled [Hm1 Hm2].
  apply has_conflict_true in Hc as (attr & v1 & v2 & H1 & H2 & Hne).
  apply rule_matches_request_inv in Hm1 as [Hall1 _].
  apply rule_matches_request_inv in Hm2 as [Hall2 _].
  pose proof (Hall1 _ (dict_get_elem _ _ _ H1)) as Hv1.
  pose proof (Hall2 _ (dict_get_elem _ _ _ H2)) as Hv2.
  simpl in Hv1, Hv2.
  assert (request_value request attr ≠ "") as Hfill.
  { apply Hfilled; apply dict_get_is_Some; by eexists. }
  destruct Hv1 as [?|Hv1]; [done|]. destruct Hv2 as [?|Hv2]; [done|]. congruence.
Qed.

Lemma conflicting_rules_do_not_both_match_example :
  ("a=1 ∧ b=2", "a=1 ∧ b=3") ∈ find_conflicting_rules (__init__ ["a=1 ∧ b=2"; "a=1 ∧ b=3"]) ∧
  ¬ (rule_matches_request "a=1 ∧ b=2" {[ "a" := "1"; "b" := "2" ]} = true ∧
     rule_matches_request "a=1 ∧ b=3" {[ "a" := "1"; "b" := "2" ]} = true).
Proof.
  assert (("a=1 ∧ b=2", "a=1 ∧ b=3")
          ∈ find_conflicting_rules (__init__ ["a=1 ∧ b=2"; "a=1 ∧ b=3"])) as Hin
    by compute_done.
  split; [exact Hin|].
  apply (conflicting_rules_do_not_both_match _ _ _ _ Hin).
  intros attr [->| [->|[]%elem_of_nil]%elem_of_cons]%elem_of_cons _; compute_done.
Defined.

End conflict_facts.

(** ** The evaluator: coverage statistics *)
Section coverage_facts.
Import Evaluator.

Lemma lookup_incr `{Countable K} (d : gmap K Z) (k k' : K) :
  incr d k !! k' = if decide (k = k') then Some (default 0 (d !! k) + 1) else d !! k'.
Proof.
  unfold incr. destruct (decide (k = k')) as [<-|Hne].
  - rewrite lookup_insert_eq. f_equal. destruct (decide (is_Some (d !! k))) as [|Hn]; [done|].
    rewrite lookup_insert_eq. simpl. apply eq_None_not_Some in Hn. by rewrite Hn.
  - rewrite lookup_insert_ne by done.
    destruct (decide (is_Some (d !! k))); [done|]. by rewrite lookup_insert_ne.
Qed.

Lemma counts_incr `{Countable K} (d : gmap K Z) (cnt : K → nat) (k : K) :
  counts d cnt → counts (incr d k) (λ k', if decide (k = k') then S (cnt k') else cnt k').
Proof.
  intros Hd k'. rewrite lookup_incr. destruct (decide (k = k')) as [<-|]; [|apply Hd].
  rewrite decide_False by done. rewrite (Hd k). f_equal.
  destruct (decide (cnt k = O)) as [->|]; simpl; lia.
Qed.

Lemma counts_ext `{Countable K} (d : gmap K Z) (cnt cnt' : K → nat) :
  (∀ k, cnt k = cnt' k) → counts d cnt → counts d cnt'.
Proof. intros Heq Hd k. by rewrite <-Heq. Qed.

Lemma counts_foldl `{Countable K} {A} (f : A → K) (l : list A) (d : gmap K Z) cnt :
  counts d cnt →
  counts (foldl (λ d x, incr d (f x)) d l)
         (λ k, (cnt k + length (filter (λ x, f x = k) l))%nat).
Proof.
  revert d cnt. induction l as [|x l IH]; intros d cnt Hd; simpl.
  - eapply counts_ext; [|done]. intros k. simpl. lia.
  - eapply counts_ext; [|apply IH, counts_incr, Hd]. intros k. simpl.
    rewrite filter_cons. destruct (decide (f x = k)); simpl; lia.
Qed.

Lemma length_filter_NoDup_fst (kvs : list (string * string)) attr :
  NoDup (fst <$> kvs) →
  length (filter (λ kv : string * string, kv.1 = attr) kvs)
  = if decide (attr ∈ fst <$> kvs) then 1%nat else 0%nat.
Proof.
  induction kvs as [|[k v] kvs IH]; [done|].
  rewrite fmap_cons. intros [Hk Hnd]%NoDup_cons. rewrite filter_cons. cbn [fst].
  destruct (decide (k = attr)) as [->|Hne].
  - rewrite decide_True by left. simpl. rewrite IH by done. by rewrite decide_False.
  - rewrite IH by done. destruct (decide (attr ∈ fst <$> kvs)).
    + rewrite decide_True; [done|by right].
    + rewrite decide_False; [done|]. by intros [?|?]%elem_of_cons.
Qed.

Lemma counts_attributes (l : list string) (d : gmap string Z) cnt :
  counts d cnt →
  counts (foldl (λ d rule, foldl (λ d (kv : string * string), incr d kv.1) d (parse_rule rule))
                d l)
         (λ attr, (cnt attr + length (filter (λ r, attr ∈ fst <$> parse_rule r) l))%nat).
Proof.
  revert d cnt. induction l as [|r l IH]; intros d cnt Hd; simpl.
  - eapply counts_ext; [|done]. intros k. simpl. lia.
  - eapply counts_ext; [|apply IH, (counts_foldl fst), Hd]. intros attr. simpl.
    rewrite length_filter_NoDup_fst by apply parse_rule_NoDup.
    rewrite filter_cons. destruct (decide (attr ∈ fst <$> parse_rule r)); simpl; lia.
Qed.

(** X9. The statistics of [get_rule_coverage_stats]: there is none without
    rules; otherwise [rules_by_complexity] has, for every number [k], the
    number of rules with [k] atoms, [attribute_distribution] has for every
    attribute the number of rules that mention it, and neither has an entry
    with the count zero. *)
Theorem get_rule_coverage_stats_counts self :
  match get_rule_coverage_stats self with
  | NoRulesLoaded => rules self = []
  | Coverage total by_complexity by_attribute =>
      rules self ≠ [] ∧
      total = Z.of_nat (length (rules self)) ∧
      counts by_complexity
        (λ k, length (filter (λ r, Z.of_nat (length (Py.split " ∧ " r)) = k) (rules self))) ∧
      counts by_attribute
        (λ attr, length (filter (λ r, attr ∈ fst <$> parse_rule r) (rules self)))
  end.
Proof.
  unfold get_rule_coverage_stats. destruct (rules self) as [|r rs] eqn:Hrules; [done|].
  split_and!; [done|done| |].
  - eapply counts_ext; [|apply (counts_foldl _ _ ∅ (λ _, O))]; [done|]. intros k. apply lookup_empty.
  - eapply counts_ext; [|apply (counts_attributes _ ∅ (λ _, O))]; [done|]. intros k. apply lookup_empty.
Qed.

End coverage_facts.

(** ** The evaluator: the list of attributes *)
Section attribute_facts.
Import Evaluator.

Lemma insert_sorted_str_ordered x l :
  StronglySorted String.le l → StronglySorted String.le (Py.insert_sorted String.leb x l).
Proof.
  induction 1 as [|y l Hl IH Hy]; simpl.
  - constructor; constructor.
  - destruct (String.leb x y) eqn:Hxy.
    + constructor; [by constructor|]. constructor; [by apply Is_true_true|].
      eapply Forall_impl; [exact Hy|]. intros z Hz. simpl in Hz.
      etrans; [|exact Hz]. by apply Is_true_true.
    + constructor; [done|]. rewrite insert_sorted_perm. constructor; [|done].
      destruct (total String.le x y) as [H|H]; [|done].
      apply Is_true_true in H. congruence.
Qed.

Lemma sorted_str_ordered l : StronglySorted String.le (Py.sorted_str l).
Proof.
  induction l as [|x l IH]; [constructor|]. by apply insert_sorted_str_ordered.
Qed.

(** [sorted] on strings gives one list for every order of its input. *)
Lemma sorted_str_perm l l' : l ≡ₚ l' → Py.sorted_str l = Py.sorted_str l'.
Proof.
  intros Hp. apply (Sorted_unique String.le).
  - apply StronglySorted_Sorted, sorted_str_ordered.
  - apply StronglySorted_Sorted, sorted_str_ordered.
  - unfold Py.sorted_str. by rewrite !sorted_perm.
Qed.

(** X10. [get_available_attributes] lists the available attributes in
    increasing order, each one once. *)
Theorem get_available_attributes_sorted self :
  StronglySorted String.le (get_available_attributes self) ∧
  NoDup (get_available_attributes self) ∧
  ∀ attr, attr ∈ get_available_attributes self ↔ attr ∈ available_attributes self.
Proof.
  unfold get_available_attributes. split_and!.
  - apply sorted_str_ordered.
  - unfold Py.sorted_str. rewrite sorted_perm. apply NoDup_elements.
  - intros attr. unfold Py.sorted_str. rewrite sorted_perm. apply elem_of_elements.
Qed.

End attribute_facts.

(** ** The miner: statistics of a run *)
Section miner_facts.
Import Pandas Rhapsody Spec.

Lemma stage1_rows self T self1 fr up a :
  _stage1 self T = (self1, Ok (fr, up, a)) →
  ∃ df, data self = Some df ∧ length (transactions self1) = length (rows df) ∧
        working_columns self1 = working_columns self.
Proof.
  unfold _stage1. destruct (data self) as [df|]; [|done].
  destruct (mapM _ _) as [log|e] eqn:Hlog; [|done].
  intros [= <- _]. exists df. split_and!; [done| |done].
  cbn [transactions set_transactions]. by apply mapM_Ok_length in Hlog.
Qed.

(** X11. After a run that returns, the statistics of the object are
    consistent: the run returned the final rules and the two maps of the
    object; the final rules are among the reliable ones and these among the
    frequent ones, so the three counts decrease; there is one transaction
    for every row of the data; and every frequent rule has an entry in
    [nUP] and in [nA]. *)
Theorem run_algorithm_statistics self T K self' out :
  run_algorithm self T K = (self', Ok out) →
  let st := get_rule_statistics self' in
  out = (rules_final st, statistics_nUP st, statistics_nA st) ∧
  rules_final st ⊆ rules_reliable st ∧ rules_reliable st ⊆ rules_frequent st ∧
  final_rules_count st ≤ reliable_rules_count st ≤ frequent_rules_count st ∧
  (∃ df, data self = Some df ∧ total_transactions st = Z.of_nat (length (rows df))) ∧
  ∀ r, r ∈ rules_frequent st →
       is_Some (statistics_nUP st !! r) ∧ is_Some (statistics_nA st !! r).
Proof.
  unfold run_algorithm. destruct (data self) as [df0|] eqn:Hdata; [|done].
  destruct (_stage1 self T) as [self1 [[[fr up] a]|e]] eqn:H1; [|done].
  pose proof (stage1_maps _ _ _ _ _ _ H1) as Hmaps.
  destruct (stage1_rows _ _ _ _ _ _ H1) as (df & Hdf & Hlen & _).
  destruct (_stage2 (set_stage1 self1 fr up a) T K) as [rr|e] eqn:H2; [|done].
  pose proof (stage2_sublist _ _ _ _ H2) as Hsub. cbn [freq_rules set_stage1] in Hsub.
  assert (length rr ≤ length fr)%nat as Hlen2.
  { revert H2. rewrite stage2_unfold.
    destruct (mark_loop _ _ _ _); simpl; [|done]. intros [= <-]. apply length_filter. }
  destruct (stage3_marks (set_rel_rules (set_stage1 self1 fr up a) rr)) as (sub & H3 & _).
  { intros r Hr. apply Hmaps. by apply Hsub. }
  rewrite H3. cbn [rel_rules set_rel_rules nA set_stage1].
  intros [= <- <-]. cbn.
  set (final := Py.sorted _ _).
  assert (final ≡ₚ filter (λ r, r ∉ sub) rr) as Hfinal by apply sorted_perm.
  split_and!; [done| |done| | | |].
  - intros r Hr. rewrite Hfinal in Hr. by apply list_elem_of_filter in Hr as [_ ?].
  - rewrite Hfinal. pose proof (length_filter (λ r, r ∉ sub) rr). lia.
  - lia.
  - rewrite Hdata in Hdf. injection Hdf as <-. exists df0. split; [done|]. by rewrite Hlen.
  - done.
Qed.

End miner_facts.

(** ** The miner: loading, and the shortest rules *)
Section miner_edge_facts.
Import Pandas Rhapsody Spec Examples.

Lemma run_algorithm_statistics_scenario_A :
  let self' := (run_algorithm (loaded scenario_A) 2 K_scenario_B).1 in
  final_rules_count (get_rule_statistics self')
  ≤ reliable_rules_count (get_rule_statistics self')
  ≤ frequent_rules_count (get_rule_statistics self').
Proof.
  apply (run_algorithm_statistics (loaded scenario_A) 2 K_scenario_B _
           (["a=1 ∧ b=2"],
            {[ "a=1" := 3; "b=2" := 2; "a=1 ∧ b=2" := 2 ]},
            {[ "a=1" := 3; "b=2" := 2; "a=1 ∧ b=2" := 2 ]})).
  rewrite (surjective_pairing (run_algorithm _ _ _)) at 1.
  apply pair_equal_spec. split; [reflexivity|compute_done].
Defined.

(** X12. [load_data] and [load_data_from_dataframe] leave the object in the
    same state on the same frame; [load_data] answers [True] where the other
    returns and [False] where it raises.  In particular a failed check of the
    selected columns does not undo the load: the object then holds the whole
    frame.  When the file cannot be read the object is unchanged. *)
Theorem load_data_as_from_dataframe self df :
  load_data self (Ok df)
  = ((load_data_from_dataframe self df).1,
     bool_decide ((load_data_from_dataframe self df).2 = Ok true)) ∧
  (∀ self', load_data self (Ok df) = (self', false) →
            data self' = Some df ∧ working_columns self' = working_columns self ∧
            ∃ col, col ∈ default [] (selected_columns self) ∧ col ∉ columns df) ∧
  (∀ e, load_data self (Raise e) = (self, false)).
Proof.
  unfold load_data, load_data_from_dataframe.
  destruct (selected_columns self) as [[|c cs]|]; [by split_and!| |by split_and!].
  destruct (filter _ _) as [|m ms] eqn:Hmissing; [by split_and!|].
  split_and!; [done| |done].
  intros self' [= <-]. split_and!; [done|done|].
  exists m. assert (m ∈ filter (λ col, col ∉ columns df) (c :: cs)) as Hm
    by (rewrite Hmissing; left).
  by apply list_elem_of_filter in Hm as [? ?].
Qed.

Lemma size_minimal (l : list string) :
  l ≠ [] → ∃ r, r ∈ l ∧ ∀ r', r' ∈ l → (size (atoms_of r) ≤ size (atoms_of r'))%nat.
Proof.
  induction l as [|x l IH]; [done|]. intros _.
  destruct l as [|y l].
  - exists x. split; [left|]. by intros r' ->%list_elem_of_singleton.
  - destruct IH as (r & Hr & Hmin); [done|].
    destruct (decide (size (atoms_of x) ≤ size (atoms_of r))%nat) as [Hle|Hgt].
    + exists x. split; [left|]. intros r' [->|Hr']%elem_of_cons; [done|].
      specialize (Hmin _ Hr'). lia.
    + exists r. split; [by right|]. intros r' [->|Hr']%elem_of_cons; [lia|by apply Hmin].
Qed.

(** X13. Stage 3 never removes a rule with the fewest atoms: such a rule of
    the reliable list is in the final list, so a non-empty reliable list
    gives a non-empty final list. *)
Theorem stage3_keeps_the_shortest_rules self :
  (∀ r, r ∈ rel_rules self → is_Some (nUP self !! r) ∧ is_Some (nA self !! r)) →
  ∃ final, _stage3 self = Ok final ∧
    (∀ r, r ∈ rel_rules self →
          (∀ r', r' ∈ rel_rules self → (size (atoms_of r) ≤ size (atoms_of r'))%nat) →
          r ∈ final) ∧
    (rel_rules self ≠ [] → final ≠ []).
Proof.
  intros Hmaps. destruct (stage3_marks self Hmaps) as (sub & -> & Hsub).
  eexists. split; [done|].
  assert (∀ r, r ∈ rel_rules self →
            (∀ r', r' ∈ rel_rules self → (size (atoms_of r) ≤ size (atoms_of r'))%nat) →
            r ∈ Py.sorted (key_le (nA_key (nA self))) (filter (λ r, r ∉ sub) (rel_rules self)))
    as Hkeep.
  { intros r Hr Hmin. rewrite sorted_perm. apply list_elem_of_filter. split; [|done].
    intros (_ & r2 & Hr2 & _ & _ & Hshort)%Hsub. unfold shorter in Hshort.
    specialize (Hmin _ Hr2). lia. }
  split; [done|]. intros Hne.
  destruct (size_minimal _ Hne) as (r & Hr & Hmin).
  specialize (Hkeep r Hr Hmin). intros Heq. rewrite Heq in Hkeep. by apply elem_of_nil in Hkeep.
Qed.

Lemma stage3_keeps_the_shortest_rules_example :
  ∃ final, stage3 ["a=1"; "a=1 ∧ b=2"] {[ "a=1" := 2; "a=1 ∧ b=2" := 2 ]}
                  {[ "a=1" := 2; "a=1 ∧ b=2" := 2 ]} ["a=1"; "a=1 ∧ b=2"] = Ok final ∧
           final ≠ [].
Proof.
  destruct (stage3_keeps_the_shortest_rules
              (set_rel_rules (set_stage1 (__init__ None) ["a=1"; "a=1 ∧ b=2"]
                                {[ "a=1" := 2; "a=1 ∧ b=2" := 2 ]}
                                {[ "a=1" := 2; "a=1 ∧ b=2" := 2 ]})
                 ["a=1"; "a=1 ∧ b=2"])) as (final & Hfinal & _ & Hne).
  - intros r [->| [->|[]%elem_of_nil]%elem_of_cons]%elem_of_cons; split; compute_done.
  - exists final. split; [exact Hfinal|]. by apply Hne.
Defined.

End miner_edge_facts.

(** ** The server: accepted file names *)
Section file_facts.
Import Server.

Lemma rsplit1_no_sep c s : Py.contains (String c "") s = false → Py.rsplit1 (String c "") s = [s].
Proof.
  induction s as [|a s IH]; intros Hs; [done|].
  pose proof (contains_head _ _ Hs) as Hp.
  cbn [Py.rsplit1]. rewrite IH by (by eapply contains_tail). by rewrite Hp.
Qed.

Lemma rsplit1_last c name ext :
  Py.contains (String c "") ext = false →
  Py.rsplit1 (String c "") (name +:+ String c "" +:+ ext) = [name; ext].
Proof.
  intros Hext. induction name as [|a name IH].
  - rewrite append_nil, append_cons, append_nil. cbn [Py.rsplit1].
    rewrite rsplit1_no_sep by done.
    rewrite prefix_cons, bool_decide_eq_true_2, prefix_nil by done.
    cbn [andb String.length String.substring]. by rewrite substring_all by lia.
  - rewrite append_cons. cbn [Py.rsplit1]. by rewrite IH.
Qed.

Lemma contains_app_r sub s t : Py.contains sub t = true → Py.contains sub (s +:+ t) = true.
Proof.
  intros Ht. induction s as [|a s IH]; [done|].
  rewrite append_cons. cbn [Py.contains]. rewrite IH. apply orb_true_r.
Qed.

Lemma last_occurrence c s :
  Py.contains (String c "") s = true →
  ∃ name ext, s = name +:+ String c "" +:+ ext ∧ Py.contains (String c "") ext = false.
Proof.
  induction s as [|a s IH]; [done|]. intros Hs.
  destruct (Py.contains (String c "") s) eqn:Htail.
  - destruct IH as (name & ext & -> & Hext); [done|]. by exists (String a name), ext.
  - cbn [Py.contains] in Hs. rewrite Htail, orb_false_r in Hs.
    rewrite prefix_cons, prefix_nil, andb_true_r in Hs. apply bool_decide_eq_true in Hs as <-.
    by exists "", s.
Qed.

(** X14. [allowed_file] accepts exactly the names whose part after the last
    dot is [csv] or [txt], in any mix of upper and Py.lower case; a name
    without a dot is refused. *)
Theorem allowed_file_spec filename :
  allowed_file filename = true ↔
  ∃ name ext, filename = name +:+ "." +:+ ext ∧ Py.contains "." ext = false ∧
              (Py.lower ext = "csv" ∨ Py.lower ext = "txt").
Proof.
  unfold allowed_file. split.
  - intros [Hdot Hext]%andb_true_iff.
    destruct (last_occurrence _ _ Hdot) as (name & ext & -> & Hno).
    rewrite rsplit1_last in Hext by done. apply bool_decide_eq_true in Hext.
    exists name, ext. split_and!; [done|done|].
    unfold ALLOWED_EXTENSIONS in Hext.
    apply elem_of_union in Hext as [->%elem_of_singleton| ->%elem_of_singleton]; auto.
  - intros (name & ext & -> & Hno & Hext).
    rewrite rsplit1_last by done. apply andb_true_iff. split.
    + apply contains_app_r. rewrite append_cons, append_nil. cbn [Py.contains].
      by rewrite prefix_cons, prefix_nil, bool_decide_eq_true_2.
    + apply bool_decide_eq_true. unfold ALLOWED_EXTENSIONS.
      destruct Hext as [-> | ->]; set_solver.
Qed.

End file_facts.
